(** * Billiard arena server: game-state engine of [server.js]

    A shallow embedding of the authoritative game logic of [src/server.js]
    (world set-up, [startGame], the respawn functions, the [collisionStart]
    handler, [handleHoleCollision] and the socket handlers) together with
    the properties the specification states about it.

    Modelling conventions.
    - Body objects live in a store [heap] indexed by object identity; the
      physics world ([Composite.bodies]) is the list [world] of identities
      in insertion order.  [players], [scoreBalls] and [blackBall] hold
      references into the store, exactly as the JS globals hold object
      references, so a mutation through one reference is seen through all.
    - JS numbers that carry scores, counts and millisecond timestamps are
      integers ([Z]); coordinates, velocities, forces and angles are exact
      rationals ([Q]) standing for the doubles of the source.
    - [Math.random], [Math.cos] and [Math.sin] are library functions; they
      are parameters of the development.  [random n] is the value of the
      [n]-th call of [Math.random] since process start.
    - [Body.applyForce], [socket.emit] and [io.emit] are recorded in a log
      of effects, most recent first.  [console.log] is not modelled. *)

From Stdlib Require Import ZArith QArith Qround Lqa.
From stdpp Require Import base option list gmap strings fin_maps.

Local Open Scope string_scope.
Local Open Scope list_scope.
Local Open Scope nat_scope.

(** ** Data model *)

Inductive Label := Wall | Hole | ScoreBall | BlackBall | PlayerBall.

#[global] Instance Label_eq_dec : EqDecision Label.
Proof. solve_decision. Defined.

Record Vector := { vx : Q; vy : Q }.

Definition Vector_create (a b : Q) : Vector := {| vx := a; vy := b |}.

Inductive Shape :=
| Rectangle (width height : Q)
| Circle (radius : Q).

(** [render.fillStyle]: a CSS colour name or literal, or the
    [hsl(<hue>, 70%, 50%)] string built for a player. *)
Inductive Color :=
| Css (s : string)
| Hsl (hue : Z).

(** A Matter.js body with the fields the server reads or writes.  The
    material options (restitution, friction, frictionAir, density) only
    parametrise the integrator and are left out.  [lastTouchedBy] and
    [playerId] are the fields the server attaches to the body; [None] is
    [null] / [undefined]. *)
Record Body := {
  label : Label;
  shape : Shape;
  position : Vector;
  velocity : Vector;
  isStatic : bool;
  isSensor : bool;
  fillStyle : option Color;
  lastTouchedBy : option string;
  playerId : option string
}.

(** An entry of the [players] object. *)
Record Player := {
  body : nat;
  score : Z;
  cooldown : Z;
  name : string;
  color : Color
}.

Inductive Message :=
| gameStarted (ballCount : Z)
| joined (id : string) (c : Color)
| init (id : string)
| cooldownNotify (duration : Z).

Inductive Effect :=
| IoEmit (m : Message)
| SocketEmit (to : string) (m : Message)
| ApplyForce (target : nat) (point : Vector) (force : Vector).

Record State := {
  heap : gmap nat Body;
  world : list nat;
  players : gmap string Player;
  scoreBalls : list nat;
  blackBall : option nat;
  gameActive : bool;
  nextId : nat;
  draws : nat;
  log : list Effect
}.

(** ** Constants *)

Definition TABLE_WIDTH : Q := 1600.
Definition TABLE_HEIGHT : Q := 900.
Definition WALL_THICKNESS : Q := 100.
Definition BALL_RADIUS : Q := 20.
Definition PLAYER_BALL_RADIUS : Q := 28.
Definition BLACK_BALL_RADIUS : Q := 22.
Definition COOLDOWN_TIME : Z := 750.
Definition holeRadius : Q := 45.

(** ** Field updates *)

Definition set_position (p : Vector) (b : Body) : Body :=
  {| label := label b; shape := shape b; position := p;
     velocity := velocity b; isStatic := isStatic b; isSensor := isSensor b;
     fillStyle := fillStyle b; lastTouchedBy := lastTouchedBy b;
     playerId := playerId b |}.

Definition set_velocity (v : Vector) (b : Body) : Body :=
  {| label := label b; shape := shape b; position := position b;
     velocity := v; isStatic := isStatic b; isSensor := isSensor b;
     fillStyle := fillStyle b; lastTouchedBy := lastTouchedBy b;
     playerId := playerId b |}.

Definition set_lastTouchedBy (t : option string) (b : Body) : Body :=
  {| label := label b; shape := shape b; position := position b;
     velocity := velocity b; isStatic := isStatic b; isSensor := isSensor b;
     fillStyle := fillStyle b; lastTouchedBy := t;
     playerId := playerId b |}.

Definition set_score (f : Z -> Z) (p : Player) : Player :=
  {| body := body p; score := f (score p); cooldown := cooldown p;
     name := name p; color := color p |}.

Definition set_cooldown (c : Z) (p : Player) : Player :=
  {| body := body p; score := score p; cooldown := c;
     name := name p; color := color p |}.

Definition with_heap (f : gmap nat Body -> gmap nat Body) (s : State) : State :=
  {| heap := f (heap s); world := world s; players := players s;
     scoreBalls := scoreBalls s; blackBall := blackBall s;
     gameActive := gameActive s; nextId := nextId s; draws := draws s;
     log := log s |}.

Definition with_world (f : list nat -> list nat) (s : State) : State :=
  {| heap := heap s; world := f (world s); players := players s;
     scoreBalls := scoreBalls s; blackBall := blackBall s;
     gameActive := gameActive s; nextId := nextId s; draws := draws s;
     log := log s |}.

Definition with_players (f : gmap string Player -> gmap string Player)
    (s : State) : State :=
  {| heap := heap s; world := world s; players := f (players s);
     scoreBalls := scoreBalls s; blackBall := blackBall s;
     gameActive := gameActive s; nextId := nextId s; draws := draws s;
     log := log s |}.

Definition with_scoreBalls (f : list nat -> list nat) (s : State) : State :=
  {| heap := heap s; world := world s; players := players s;
     scoreBalls := f (scoreBalls s); blackBall := blackBall s;
     gameActive := gameActive s; nextId := nextId s; draws := draws s;
     log := log s |}.

Definition with_blackBall (b : option nat) (s : State) : State :=
  {| heap := heap s; world := world s; players := players s;
     scoreBalls := scoreBalls s; blackBall := b;
     gameActive := gameActive s; nextId := nextId s; draws := draws s;
     log := log s |}.

Definition with_gameActive (a : bool) (s : State) : State :=
  {| heap := heap s; world := world s; players := players s;
     scoreBalls := scoreBalls s; blackBall := blackBall s;
     gameActive := a; nextId := nextId s; draws := draws s;
     log := log s |}.

Definition with_draws (n : nat) (s : State) : State :=
  {| heap := heap s; world := world s; players := players s;
     scoreBalls := scoreBalls s; blackBall := blackBall s;
     gameActive := gameActive s; nextId := nextId s; draws := n;
     log := log s |}.

Definition emit (e : Effect) (s : State) : State :=
  {| heap := heap s; world := world s; players := players s;
     scoreBalls := scoreBalls s; blackBall := blackBall s;
     gameActive := gameActive s; nextId := nextId s; draws := draws s;
     log := e :: log s |}.

(** ** The physics adapter (Matter.js calls used by the server) *)

(** A body factory call: the new object gets the next identity. *)
Definition alloc (b : Body) (s : State) : nat * State :=
  (nextId s,
   {| heap := <[nextId s := b]> (heap s); world := world s;
      players := players s; scoreBalls := scoreBalls s;
      blackBall := blackBall s; gameActive := gameActive s;
      nextId := S (nextId s); draws := draws s; log := log s |}).

Definition zero : Vector := Vector_create 0 0.

Definition Bodies_rectangle (x y w h : Q) (static sensor : bool) (l : Label)
    : Body :=
  {| label := l; shape := Rectangle w h; position := Vector_create x y;
     velocity := zero; isStatic := static; isSensor := sensor;
     fillStyle := None; lastTouchedBy := None; playerId := None |}.

Definition Bodies_circle (x y r : Q) (static sensor : bool) (l : Label)
    (fill : option Color) : Body :=
  {| label := l; shape := Circle r; position := Vector_create x y;
     velocity := zero; isStatic := static; isSensor := sensor;
     fillStyle := fill; lastTouchedBy := None; playerId := None |}.

(** [World.add(world, body)]: push at the end of [Composite.bodies]. *)
Definition World_add (id : nat) (s : State) : State :=
  with_world (fun w => w ++ [id]) s.

(** [Composite.removeBody]: [indexOf] then [splice], i.e. the first
    occurrence is removed and an absent body changes nothing. *)
Fixpoint remove_first (id : nat) (w : list nat) : list nat :=
  match w with
  | [] => []
  | i :: w' => if decide (i = id) then w' else i :: remove_first id w'
  end.

Definition World_remove (id : nat) (s : State) : State :=
  with_world (remove_first id) s.

Definition Body_setPosition (id : nat) (p : Vector) (s : State) : State :=
  with_heap (alter (set_position p) id) s.

Definition Body_setVelocity (id : nat) (v : Vector) (s : State) : State :=
  with_heap (alter (set_velocity v) id) s.

(** JS truthiness of an attached id: [null] and the empty string are falsy. *)
Definition truthy (o : option string) : option string :=
  match o with
  | Some t => if decide (t = "") then None else Some t
  | None => None
  end.

(** The property key an id is turned into when it indexes [players]. *)
Definition prop_key (o : option string) : string :=
  match o with
  | Some t => t
  | None => "undefined"
  end.

(** [v || d] on an optional numeric field: absent and zero are falsy. *)
Definition or_Z (o : option Z) (d : Z) : Z :=
  match o with
  | Some n => if decide (n = 0%Z) then d else n
  | None => d
  end.

Definition or_Q (o : option Q) (d : Q) : Q :=
  match o with
  | Some q => if Qeq_bool q 0 then d else q
  | None => d
  end.

(** The payloads of [startGame] and [shoot].  The payload object itself is
    present (the handlers read its fields without a test); each field may
    be absent.  [ballCount] is an integer-valued number. *)
Record StartGameData := { ballCount : option Z }.
Record ShootData := { force : option Q; angle : option Q }.

Definition empty_state : State :=
  {| heap := ∅; world := []; players := ∅; scoreBalls := [];
     blackBall := None; gameActive := false; nextId := 0; draws := 0;
     log := [] |}.

(** ** The server *)

Section Server.

Variable random : nat -> Q.
Variables cos sin : Q -> Q.

(** *** World set-up *)

Fixpoint alloc_all (bs : list Body) (s : State) : list nat * State :=
  match bs with
  | [] => ([], s)
  | b :: bs' =>
      let '(id, s1) := alloc b s in
      let '(ids, s2) := alloc_all bs' s1 in
      (id :: ids, s2)
  end.

Definition World_add_all (ids : list nat) (s : State) : State :=
  with_world (fun w => w ++ ids) s.

Definition walls : list Body :=
  [ Bodies_rectangle (TABLE_WIDTH / 2) (- WALL_THICKNESS / 2)
      (TABLE_WIDTH + 2 * WALL_THICKNESS) WALL_THICKNESS true false Wall;
    Bodies_rectangle (TABLE_WIDTH / 2) (TABLE_HEIGHT + WALL_THICKNESS / 2)
      (TABLE_WIDTH + 2 * WALL_THICKNESS) WALL_THICKNESS true false Wall;
    Bodies_rectangle (- WALL_THICKNESS / 2) (TABLE_HEIGHT / 2)
      WALL_THICKNESS (TABLE_HEIGHT + 2 * WALL_THICKNESS) true false Wall;
    Bodies_rectangle (TABLE_WIDTH + WALL_THICKNESS / 2) (TABLE_HEIGHT / 2)
      WALL_THICKNESS (TABLE_HEIGHT + 2 * WALL_THICKNESS) true false Wall ]%Q.

Definition holePositions : list Vector :=
  [ Vector_create 0 0; Vector_create (TABLE_WIDTH / 2) 0;
    Vector_create TABLE_WIDTH 0;
    Vector_create 0 TABLE_HEIGHT; Vector_create (TABLE_WIDTH / 2) TABLE_HEIGHT;
    Vector_create TABLE_WIDTH TABLE_HEIGHT ]%Q.

Definition holes : list Body :=
  map (fun pos => Bodies_circle (vx pos) (vy pos) holeRadius true true Hole None)
      holePositions.

(** The state after the walls and the holes have been added. *)
Definition boot : State :=
  let '(ws, s1) := alloc_all walls empty_state in
  let s2 := World_add_all ws s1 in
  let '(hs, s3) := alloc_all holes s2 in
  World_add_all hs s3.

(** *** Game state *)

(** [Math.random() * (TABLE_WIDTH - 200) + 100] and its [y] counterpart. *)
Definition inset_x (r : Q) : Q := (r * (TABLE_WIDTH - 200) + 100)%Q.
Definition inset_y (r : Q) : Q := (r * (TABLE_HEIGHT - 200) + 100)%Q.

Definition createScoreBall (s : State) : nat * State :=
  let n := draws s in
  let x := inset_x (random n) in
  let y := inset_y (random (n + 1)) in
  let fill := if Qle_bool (random (n + 2)) (1 # 2)
              then Css "#ff3333" else Css "white" in
  alloc (Bodies_circle x y BALL_RADIUS false false ScoreBall (Some fill))
        (with_draws (n + 3) s).

Definition createBlackBall (s : State) : nat * State :=
  alloc (Bodies_circle (TABLE_WIDTH / 2) (TABLE_HEIGHT / 2) BLACK_BALL_RADIUS
           false false BlackBall (Some (Css "black"))) s.

(** The loop [for (let i = 0; i < ballCount; i++)] of [startGame]. *)
Fixpoint spawnScoreBalls (n : nat) (s : State) : State :=
  match n with
  | O => s
  | S k =>
      let '(ball, s1) := createScoreBall s in
      spawnScoreBalls k (World_add ball (with_scoreBalls (fun l => l ++ [ball]) s1))
  end.

Definition startGame (ballCount : Z) (s : State) : State :=
  let s1 := fold_left (fun st ball => World_remove ball st) (scoreBalls s) s in
  let s2 := match blackBall s1 with
            | Some b => World_remove b s1
            | None => s1
            end in
  let s3 := with_scoreBalls (fun _ => []) s2 in
  let s4 := spawnScoreBalls (Z.to_nat ballCount) s3 in
  let '(bb, s5) := createBlackBall s4 in
  let s6 := World_add bb (with_blackBall (Some bb) s5) in
  let s7 := with_players (fmap (set_score (fun _ => 0%Z))) s6 in
  with_gameActive true s7.

(** The state in which the server starts to listen: [startGame(15)] has
    run at module load. *)
Definition initial : State := startGame 15 boot.

Definition respawnScoreBall (ball : nat) (s : State) : State :=
  let n := draws s in
  let s1 := Body_setPosition ball
              (Vector_create (inset_x (random n)) (inset_y (random (n + 1))))
              (with_draws (n + 2) s) in
  let s2 := Body_setVelocity ball zero s1 in
  with_heap (alter (set_lastTouchedBy None) ball) s2.

(** [respawnBlackBall] works on the global [blackBall], not on an argument.
    With [blackBall = null] the JS call would raise a [TypeError]; the
    global is set at module load and never reset to [null]
    (see [consistent_blackBall]). *)
Definition respawnBlackBall (s : State) : State :=
  match blackBall s with
  | Some bb =>
      let s1 := Body_setPosition bb
                  (Vector_create (TABLE_WIDTH / 2) (TABLE_HEIGHT / 2)) s in
      let s2 := Body_setVelocity bb zero s1 in
      with_heap (alter (set_lastTouchedBy None) bb) s2
  | None => s
  end.

Definition respawnPlayer (playerBody : nat) (s : State) : State :=
  let n := draws s in
  let s1 := Body_setPosition playerBody
              (Vector_create (inset_x (random n)) (inset_y (random (n + 1))))
              (with_draws (n + 2) s) in
  let s2 := Body_setVelocity playerBody zero s1 in
  with_heap (alter (set_lastTouchedBy None) playerBody) s2.

(** *** Logic *)

(** [ball] refers to an allocated object; the first [None] branch only
    makes the lookup total. *)
Definition handleHoleCollision (ball : nat) (s : State) : State :=
  match heap s !! ball with
  | None => s
  | Some b =>
      match label b with
      | ScoreBall =>
          let s1 :=
            match truthy (lastTouchedBy b) with
            | Some t =>
                match players s !! t with
                | Some _ =>
                    with_players (alter (set_score (fun z => z + 1)%Z) t) s
                | None => s
                end
            | None => s
            end in
          respawnScoreBall ball s1
      | PlayerBall =>
          let victimId := playerId b in
          match players s !! prop_key victimId with
          | Some _ =>
              let s1 := with_players
                          (alter (set_score (fun z => z - 5)%Z) (prop_key victimId)) s in
              let killerId := lastTouchedBy b in
              let s2 :=
                match truthy killerId with
                | Some k =>
                    if decide (killerId = victimId) then s1
                    else match players s1 !! k with
                         | Some _ =>
                             with_players (alter (set_score (fun z => z + 10)%Z) k) s1
                         | None => s1
                         end
                | None => s1
                end in
              respawnPlayer ball s2
          | None => s
          end
      | BlackBall =>
          let s1 :=
            match truthy (lastTouchedBy b) with
            | Some t =>
                match players s !! t with
                | Some _ =>
                    with_players (alter (set_score (fun _ => 0%Z)) t) s
                | None => s
                end
            | None => s
            end in
          respawnBlackBall s1
      | _ => s
      end
  end.

(** One iteration of the loop of the [collisionStart] listener, for the
    pair [(bodyA, bodyB)]. *)
Definition handlePair (bodyA bodyB : nat) (s : State) : State :=
  match heap s !! bodyA, heap s !! bodyB with
  | Some a, Some b =>
      if decide (label a = Hole) then handleHoleCollision bodyB s
      else if decide (label b = Hole) then handleHoleCollision bodyA s
      else
        let touch (playerBody : Body) (otherBody : nat) (other : Body) :=
          if decide (label other ≠ Wall ∧ label other ≠ Hole)
          then with_heap (alter (set_lastTouchedBy (playerId playerBody)) otherBody) s
          else s in
        if decide (label a = PlayerBall) then touch a bodyB b
        else if decide (label b = PlayerBall) then touch b bodyA a
        else s
  | _, _ => s
  end.

Definition collisionStart (pairs : list (nat * nat)) (s : State) : State :=
  fold_left (fun st p => handlePair (fst p) (snd p) st) pairs s.

(** *** Socket handlers; the first argument is [socket.id] *)

Definition onStartGame (data : StartGameData) (s : State) : State :=
  let n := Z.min (Z.max (or_Z (ballCount data) 15) 5) 50 in
  emit (IoEmit (gameStarted n)) (startGame n s).

(** The block that [joinGame] and [autoJoin] both contain: create the
    player's ball and the [players] entry.  Returns the colour as well. *)
Definition createPlayer (sid : string) (s : State) : Color * State :=
  let n := draws s in
  let hue := Qfloor (random n * 360) in
  let c := Hsl hue in
  let playerBall :=
    {| label := PlayerBall; shape := Circle PLAYER_BALL_RADIUS;
       position := Vector_create (inset_x (random (n + 1)))
                                 (inset_y (random (n + 2)));
       velocity := zero; isStatic := false; isSensor := false;
       fillStyle := Some c; lastTouchedBy := None; playerId := Some sid |} in
  let '(id, s1) := alloc playerBall (with_draws (n + 3) s) in
  let s2 := World_add id s1 in
  (c, with_players
        <[sid := {| body := id; score := 0; cooldown := 0;
                    name := "P-" +:+ String.substring 0 4 sid; color := c |}]> s2).

Definition joinGame (sid : string) (s : State) : State :=
  match players s !! sid with
  | Some _ => s
  | None =>
      let '(c, s1) := createPlayer sid s in
      emit (SocketEmit sid (joined sid c)) s1
  end.

Definition autoJoin (sid : string) (s : State) : State :=
  let s1 := emit (SocketEmit sid (init sid)) s in
  match players s1 !! sid with
  | Some _ => s1
  | None => snd (createPlayer sid s1)
  end.

(** [now] is the value of [Date.now()].  [player.body] always refers to
    an allocated object, so the last [None] branch is never taken
    ([consistent_player_heap]). *)
Definition shoot (sid : string) (data : ShootData) (now : Z) (s : State)
    : State :=
  match players s !! sid with
  | None => s
  | Some player =>
      if decide (cooldown player ≤ now)%Z then
        let forceMag := (or_Q (force data) 0 * (3 # 10))%Q in
        let a := or_Q (angle data) 0 in
        let f := Vector_create (cos a * forceMag) (sin a * forceMag) in
        match heap s !! body player with
        | Some b =>
            let s1 := emit (ApplyForce (body player) (position b) f) s in
            let s2 := with_players
                        (alter (set_cooldown (now + COOLDOWN_TIME)) sid) s1 in
            emit (SocketEmit sid (cooldownNotify COOLDOWN_TIME)) s2
        | None => s
        end
      else s
  end.

Definition disconnect (sid : string) (s : State) : State :=
  match players s !! sid with
  | Some player => with_players (delete sid) (World_remove (body player) s)
  | None => s
  end.

End Server.

(** ** Vocabulary of the properties *)

Definition label_of (s : State) (id : nat) : option Label :=
  label <$> heap s !! id.

(** The body [id] is an allocated object with label [L]. *)
Definition is_a (L : Label) (s : State) (id : nat) : Prop :=
  label_of s id = Some L.

#[global] Instance is_a_dec L s id : Decision (is_a L s id).
Proof. unfold is_a. apply _. Defined.

(** Number of bodies of the world that carry label [L]. *)
Definition count_label (L : Label) (s : State) : nat :=
  length (filter (is_a L s) (world s)).

(** What a body is for the game: its label and its owner.  Neither is
    ever assigned after the body has been created. *)
Definition kind (b : Body) : Label * option string := (label b, playerId b).

(** The body [id] is a PlayerBall whose [playerId] is [sid]. *)
Definition owned_by (sid : string) (s : State) (id : nat) : Prop :=
  kind <$> heap s !! id = Some (PlayerBall, Some sid).

#[global] Instance owned_by_dec sid s id : Decision (owned_by sid s id).
Proof. unfold owned_by. apply _. Defined.

(** The inset rectangle x in [100,1500], y in [100,800]. *)
Definition in_inset (p : Vector) : Prop :=
  (100 <= vx p)%Q ∧ (vx p <= 1500)%Q ∧ (100 <= vy p)%Q ∧ (vy p <= 800)%Q.

(** The table centre (800, 450). *)
Definition at_center (p : Vector) : Prop :=
  (vx p == 800)%Q ∧ (vy p == 450)%Q.

(** [Math.random] returns a number in [0, 1). *)
Definition unit_interval (random : nat -> Q) : Prop :=
  ∀ n, (0 <= random n)%Q ∧ (random n < 1)%Q.

Definition is_ApplyForce (e : Effect) : bool :=
  match e with ApplyForce _ _ _ => true | _ => false end.

(** Number of [Body.applyForce] calls made so far. *)
Definition forces_applied (s : State) : nat :=
  length (filter (fun e => is_ApplyForce e = true) (log s)).

(** The score change [d] applied to a [players] entry. *)
Definition add_score (d : Z) (p : Player) : Player :=
  set_score (fun z => z + d)%Z p.

(** An attached id is not the empty string (socket ids never are). *)
Definition nonempty (o : option string) : Prop := o ≠ Some "".

Definition ids_ok (s : State) : Prop :=
  ∀ id b, heap s !! id = Some b →
    nonempty (lastTouchedBy b) ∧ nonempty (playerId b).

(** The state invariant: what the globals of [server.js] satisfy between
    any two handler runs, and between two iterations of the loop of the
    [collisionStart] listener.  It holds at start-up and every handler
    keeps it ([reachable_consistent]). *)
Record consistent (s : State) : Prop := {
  c_nodup : NoDup (world s);
  c_alloc : ∀ id, is_Some (heap s !! id) ↔ id < nextId s;
  c_world : ∀ id, id ∈ world s → id < nextId s;
  c_ids : ids_ok s;
  c_player_body : ∀ sid p, players s !! sid = Some p →
            body p ∈ world s ∧ owned_by sid s (body p);
  c_body_player : ∀ id, id ∈ world s → is_a PlayerBall s id →
            ∃ sid p, owned_by sid s id ∧ players s !! sid = Some p ∧ body p = id;
  c_scoreBalls_nodup : NoDup (scoreBalls s);
  c_scoreBalls : ∀ id, id ∈ scoreBalls s ↔ id ∈ world s ∧ is_a ScoreBall s id;
  c_blackBall : ∃ k, blackBall s = Some k ∧
            ∀ id, id = k ↔ id ∈ world s ∧ is_a BlackBall s id
}.

(** [frame s s'] : going from [s] to [s'] neither creates nor removes a
    body or a session and changes no label and no owner. *)
Record frame (s s' : State) : Prop := {
  f_world : world s' = world s;
  f_scoreBalls : scoreBalls s' = scoreBalls s;
  f_blackBall : blackBall s' = blackBall s;
  f_nextId : nextId s' = nextId s;
  f_kind : ∀ id, kind <$> heap s' !! id = kind <$> heap s !! id;
  f_body : ∀ sid, body <$> players s' !! sid = body <$> players s !! sid;
  f_ids : ids_ok s → ids_ok s'
}.

(** What a start-game request yields according to the specification's
    testable property: a [ballCount] that is absent or not positive is
    replaced by 15, then the value is clamped to [5, 50]. *)
Definition spec_ball_count (o : option Z) : Z :=
  let n := match o with
           | Some n => if decide (n ≤ 0)%Z then 15%Z else n
           | None => 15%Z
           end in
  Z.min (Z.max n 5) 50.

(** [Engine.update] moves the non-static bodies of the world.  What the
    integrator computes is not part of the server: [motion id] is the new
    position and velocity it gives to body [id]. *)
Definition move (m : Vector * Vector) (b : Body) : Body :=
  if isStatic b then b else set_velocity (snd m) (set_position (fst m) b).

Definition integrate (motion : nat -> Vector * Vector) (s : State) : State :=
  with_heap
    (fun h => foldr (fun id h' => alter (move (motion id)) id h') h (world s)) s.

(** The messages the server reacts to, and the physics callbacks. *)
Inductive Event :=
| EvStartGame (data : StartGameData)
| EvJoinGame (sid : string)
| EvAutoJoin (sid : string)
| EvShoot (sid : string) (data : ShootData) (now : Z)
| EvDisconnect (sid : string)
| EvIntegrate (motion : nat -> Vector * Vector)
| EvCollisionStart (pairs : list (nat * nat)).

Definition handle (random : nat -> Q) (cos sin : Q -> Q) (e : Event)
    (s : State) : State :=
  match e with
  | EvStartGame data => onStartGame random data s
  | EvJoinGame sid => joinGame random sid s
  | EvAutoJoin sid => autoJoin random sid s
  | EvShoot sid data now => shoot cos sin sid data now s
  | EvDisconnect sid => disconnect sid s
  | EvIntegrate motion => integrate motion s
  | EvCollisionStart pairs => collisionStart random pairs s
  end.

(** Socket ids are non-empty strings. *)
Definition valid_event (e : Event) : Prop :=
  match e with
  | EvJoinGame sid | EvAutoJoin sid => sid ≠ ""
  | _ => True
  end.

Inductive reachable (random : nat -> Q) (cos sin : Q -> Q) : State -> Prop :=
| reach_initial : reachable random cos sin (initial random)
| reach_handle e s :
    reachable random cos sin s → valid_event e →
    reachable random cos sin (handle random cos sin e s).

(** The blocks of [startGame], named for the proofs: the world after
    "Clear existing balls", and the part from "Create black ball" on. *)
Definition remove_all (l w : list nat) : list nat :=
  fold_left (fun w' b => remove_first b w') l w.

Definition clearBalls (s : State) : State :=
  let s1 := fold_left (fun st ball => World_remove ball st) (scoreBalls s) s in
  let s2 := match blackBall s1 with
            | Some b => World_remove b s1
            | None => s1
            end in
  with_scoreBalls (fun _ => []) s2.

(** The ScoreBall that [createScoreBall] builds when [n] random numbers
    have been drawn before. *)
Definition scoreBallBody (random : nat -> Q) (n : nat) : Body :=
  Bodies_circle (inset_x (random n)) (inset_y (random (n + 1))) BALL_RADIUS
    false false ScoreBall
    (Some (if Qle_bool (random (n + 2)) (1 # 2)
           then Css "#ff3333" else Css "white")).

(** The PlayerBall and the [players] entry that [joinGame] and [autoJoin]
    build for [sid] when [n] random numbers have been drawn before. *)
Definition playerBallBody (random : nat -> Q) (n : nat) (sid : string) : Body :=
  {| label := PlayerBall; shape := Circle PLAYER_BALL_RADIUS;
     position := Vector_create (inset_x (random (n + 1)))
                               (inset_y (random (n + 2)));
     velocity := zero; isStatic := false; isSensor := false;
     fillStyle := Some (Hsl (Qfloor (random n * 360)));
     lastTouchedBy := None; playerId := Some sid |}.

Definition playerEntry (random : nat -> Q) (n : nat) (sid : string)
    (ball : nat) : Player :=
  {| body := ball; score := 0; cooldown := 0;
     name := "P-" +:+ String.substring 0 4 sid;
     color := Hsl (Qfloor (random n * 360)) |}.

Definition blackBallBody : Body :=
  Bodies_circle (TABLE_WIDTH / 2) (TABLE_HEIGHT / 2) BLACK_BALL_RADIUS
    false false BlackBall (Some (Css "black")).

Definition finishStart (s4 : State) : State :=
  let '(bb, s5) := createBlackBall s4 in
  let s6 := World_add bb (with_blackBall (Some bb) s5) in
  let s7 := with_players (fmap (set_score (fun _ => 0%Z))) s6 in
  with_gameActive true s7.

(** What [startGame] needs of the state it is called in; weaker than
    [consistent], so that it also holds before the first game. *)
Record startable (s : State) : Prop := {
  st_nodup : NoDup (world s);
  st_alloc : ∀ id, is_Some (heap s !! id) ↔ id < nextId s;
  st_world : ∀ id, id ∈ world s → id < nextId s;
  st_ids : ids_ok s;
  st_player_body : ∀ sid p, players s !! sid = Some p →
            body p ∈ world s ∧ owned_by sid s (body p);
  st_body_player : ∀ id, id ∈ world s → is_a PlayerBall s id →
            ∃ sid p, owned_by sid s id ∧ players s !! sid = Some p ∧ body p = id;
  st_scoreBalls : ∀ id, id ∈ world s → id ∈ scoreBalls s ↔ is_a ScoreBall s id;
  st_blackBall : ∀ id, id ∈ world s → blackBall s = Some id ↔ is_a BlackBall s id
}.

(** What the three respawn functions do to the body they are given:
    new position [p], zero velocity, no last toucher. *)
Definition respawned (p : Vector) (b : Body) : Body :=
  set_lastTouchedBy None (set_velocity zero (set_position p b)).

(** The inset point drawn when [n] random numbers have been drawn before. *)
Definition inset_draw (random : nat -> Q) (n : nat) : Vector :=
  Vector_create (inset_x (random n)) (inset_y (random (n + 1))).

(** Sample library functions for the examples: a [Math.random] that
    always returns one half, and constant stand-ins for the cosine and the
    sine. *)
Definition half (n : nat) : Q := 1 # 2.
Definition const_one (a : Q) : Q := 1.
Definition const_zero (a : Q) : Q := 0.

(** Stand-ins for the cosine and the sine that depend on the angle (the
    first terms of their series), to tell the two components of a force
    and two angles apart in the examples. *)
Definition sample_cos (a : Q) : Q := (1 - a * a / 2)%Q.
Definition sample_sin (a : Q) : Q := a.

(** A state with two sessions, "a" and "b", joined in this order right
    after start-up; their balls are the objects 26 and 27. *)
Definition two_players : State :=
  joinGame half "b" (joinGame half "a" (initial half)).

(** Player "a" has touched the ScoreBall 10. *)
Definition touched_score : State := handlePair half 26 10 two_players.

(** ... and that ball has then met the hole 5: "a" has one point. *)
Definition scored : State := handlePair half 5 10 touched_score.

(** ... and "a" has then touched the BlackBall 25. *)
Definition touched_black : State := handlePair half 26 25 scored.


(** The bodies that populate the world before the first game: walls and
    holes, which nobody owns and nobody touched. *)
Definition static_body (b : Body) : Prop :=
  (label b = Wall ∨ label b = Hole) ∧ lastTouchedBy b = None ∧ playerId b = None.

(** ** The snapshot of the server loop *)

(** The entries of [ballData] and of [playerData]; the fields are those of
    the source, prefixed where a name is taken. *)
Record BallData := {
  ball_id : nat;
  ball_x : Z;
  ball_y : Z;
  ball_angle : Q;
  ball_label : Label;
  ball_color : option Color;
  ball_r : option Q;
  ball_playerId : option string
}.

Record PlayerData := {
  player_score : Z;
  player_name : string;
  player_color : Color;
  cooldownProgress : Q
}.

(** The payload of the [gameState] broadcast. *)
Record GameState := {
  gs_balls : list BallData;
  gs_players : gmap string PlayerData
}.

(** [Math.round]: the nearest integer, a half rounding up. *)
Definition Math_round (q : Q) : Z := Qfloor (q + (1 # 2)).

(** [body.circleRadius], set by [Bodies.circle] only. *)
Definition circleRadius (b : Body) : option Q :=
  match shape b with
  | Circle r => Some r
  | Rectangle _ _ => None
  end.

(** One iteration of the loop over [Composite.allBodies(world)].  The
    orientation [b.angle] belongs to the integrator alone; [angle_of id] is
    its current value for the body [id]. *)
Definition packBall (angle_of : nat -> Q) (s : State) (id : nat)
    : option BallData :=
  match heap s !! id with
  | Some b =>
      if decide (label b = Wall ∨ label b = Hole) then None
      else Some {| ball_id := id;
                   ball_x := Math_round (vx (position b));
                   ball_y := Math_round (vy (position b));
                   ball_angle := angle_of id;
                   ball_label := label b;
                   ball_color := fillStyle b;
                   ball_r := circleRadius b;
                   ball_playerId := truthy (playerId b) |}
  | None => None
  end.

Definition packBalls (angle_of : nat -> Q) (s : State) : list BallData :=
  omap (packBall angle_of s) (world s).

(** One iteration of the loop [for (let id in players)]; [now] is
    [Date.now()]. *)
Definition packPlayer (now : Z) (p : Player) : PlayerData :=
  {| player_score := score p;
     player_name := name p;
     player_color := color p;
     cooldownProgress :=
       if decide (now < cooldown p)%Z
       then (inject_Z (cooldown p - now) / inject_Z COOLDOWN_TIME)%Q
       else 0%Q |}.

Definition packPlayers (now : Z) (s : State) : gmap string PlayerData :=
  packPlayer now <$> players s.

(** What the interval callback broadcasts when [Engine.update] has left
    the state [s]. *)
Definition gameState (angle_of : nat -> Q) (now : Z) (s : State) : GameState :=
  {| gs_balls := packBalls angle_of s; gs_players := packPlayers now s |}.

(** ** More vocabulary *)

(** The body [id] is a ball: an allocated object that is neither a Wall
    nor a Hole. *)
Definition is_ball (s : State) (id : nat) : Prop :=
  ∃ b, heap s !! id = Some b ∧ label b ≠ Wall ∧ label b ≠ Hole.

(** What a session keeps when only scores change. *)
Definition session (p : Player) : nat * Z * string * Color :=
  (body p, cooldown p, name p, color p).

(** What a body keeps when it is only moved or attributed. *)
Definition make (b : Body)
    : Label * Shape * bool * bool * option Color * option string :=
  (label b, shape b, isStatic b, isSensor b, fillStyle b, playerId b).

(** [steady s s']: the step from [s] to [s'] may move and attribute balls,
    change scores and draw random numbers, and nothing else. *)
Record steady (s s' : State) : Prop := {
  sd_world : world s' = world s;
  sd_scoreBalls : scoreBalls s' = scoreBalls s;
  sd_blackBall : blackBall s' = blackBall s;
  sd_gameActive : gameActive s' = gameActive s;
  sd_nextId : nextId s' = nextId s;
  sd_log : log s' = log s;
  sd_draws : draws s ≤ draws s';
  sd_make : ∀ id, make <$> heap s' !! id = make <$> heap s !! id;
  sd_session : ∀ sid, session <$> players s' !! sid = session <$> players s !! sid
}.

(** [table_same s s']: the worlds of [s] and [s'] have the same walls and
    holes, and these are the same objects in the same condition. *)
Definition table_same (s s' : State) : Prop :=
  ∀ id b, label b = Wall ∨ label b = Hole →
          (id ∈ world s ∧ heap s !! id = Some b) ↔
          (id ∈ world s' ∧ heap s' !! id = Some b).

(** Only PlayerBalls carry a [playerId]. *)
Definition owners_ok (s : State) : Prop :=
  ∀ id b, heap s !! id = Some b → is_Some (playerId b) → label b = PlayerBall.

(** What holds of every state of the running server beyond [consistent]:
    a game is on, with 5 to 50 ScoreBalls, on the table built at
    start-up. *)
Record settled (s : State) : Prop := {
  se_active : gameActive s = true;
  se_count : 5 ≤ length (scoreBalls s) ∧ length (scoreBalls s) ≤ 50;
  se_table : table_same boot s;
  se_owners : owners_ok s
}.

(** The balls of a snapshot that belong to the player [sid]. *)
Definition balls_of (sid : string) (l : list BallData) : list BallData :=
  filter (fun d => ball_playerId d = Some sid) l.

(** A sample orientation for the snapshots: no body has turned. *)
Definition no_rotation (id : nat) : Q := 0.

(** The later of two contacts with a ball wins: a sample state in which
    "a" and then "b" have touched the ScoreBall 10. *)
Definition touched_twice : State := handlePair half 27 10 touched_score.

(** * Properties *)

(** ** Lists of body identities *)

Lemma remove_first_elem_of id w x :
  NoDup w → x ∈ remove_first id w ↔ x ∈ w ∧ x ≠ id.
Proof.
  induction w as [|i w IH]; simpl; intros Hnd.
  - split; [intros H | intros [H _]]; inversion H.
  - apply NoDup_cons in Hnd as [Hi Hnd]. case_decide as Hid.
    + subst i. split.
      * intros Hx. split; [by right | intros ->; contradiction].
      * intros [Hx Hne]. apply elem_of_cons in Hx as [?|?]; [congruence | done].
    + rewrite !elem_of_cons, IH by done.
      split; [intros [->|[? ?]]; auto | intros [[->|?] ?]; auto].
Qed.

Lemma remove_first_sublist id w : sublist (remove_first id w) w.
Proof.
  induction w as [|i w IH]; simpl; [constructor|].
  case_decide; [by apply sublist_cons | by apply sublist_skip].
Qed.

Lemma remove_first_NoDup id w : NoDup w → NoDup (remove_first id w).
Proof. intros H. eapply sublist_NoDup; [done | apply remove_first_sublist]. Qed.

Lemma NoDup_only (l : list nat) k :
  NoDup l → (∀ x, x ∈ l ↔ x = k) → l = [k].
Proof.
  intros Hnd Hk. destruct l as [|a l].
  - assert (k ∈ @nil nat) as H by (by apply Hk). inversion H.
  - apply NoDup_cons in Hnd as [Ha Hnd].
    assert (a = k) as -> by (apply Hk; by left).
    destruct l as [|b l]; [done|].
    assert (b = k) as -> by (apply Hk; right; by left).
    exfalso. apply Ha. by left.
Qed.

(** ** Elementary facts about the field updates *)

Lemma add_score_0 p : add_score 0 p = p.
Proof. destruct p. unfold add_score, set_score. simpl. by rewrite Z.add_0_r. Qed.

Lemma truthy_nonempty o : nonempty o → truthy o = o.
Proof.
  unfold nonempty, truthy. destruct o as [t|]; [|done].
  intros H. case_decide; [congruence | done].
Qed.

Lemma inset_x_range r :
  (0 <= r)%Q → (r < 1)%Q → (100 <= inset_x r)%Q ∧ (inset_x r <= 1500)%Q.
Proof. unfold inset_x, TABLE_WIDTH. intros. split; lra. Qed.

Lemma inset_y_range r :
  (0 <= r)%Q → (r < 1)%Q → (100 <= inset_y r)%Q ∧ (inset_y r <= 800)%Q.
Proof. unfold inset_y, TABLE_HEIGHT. intros. split; lra. Qed.

Lemma inset_point random n :
  unit_interval random →
  in_inset (Vector_create (inset_x (random n)) (inset_y (random (n + 1)))).
Proof.
  intros Hr. unfold in_inset. simpl.
  destruct (Hr n), (Hr (n + 1)).
  destruct (inset_x_range (random n)), (inset_y_range (random (n + 1))); auto.
Qed.

Lemma center_point :
  at_center (Vector_create (TABLE_WIDTH / 2) (TABLE_HEIGHT / 2)).
Proof. unfold at_center, TABLE_WIDTH, TABLE_HEIGHT. simpl. split; reflexivity. Qed.

(** Projections of an updated state, without touching the maps. *)
Ltac state_simpl :=
  cbn [heap world players scoreBalls blackBall gameActive nextId draws log
       with_heap with_world with_players with_scoreBalls with_blackBall
       with_gameActive with_draws emit alloc World_add World_remove
       Body_setPosition Body_setVelocity fst snd] in *.

(** ** Frames: steps that keep the population of bodies and sessions *)

Lemma frame_refl s : frame s s.
Proof. by constructor. Qed.

Lemma frame_trans s1 s2 s3 : frame s1 s2 → frame s2 s3 → frame s1 s3.
Proof.
  intros F G. constructor.
  - rewrite (f_world _ _ G). apply F.
  - rewrite (f_scoreBalls _ _ G). apply F.
  - rewrite (f_blackBall _ _ G). apply F.
  - rewrite (f_nextId _ _ G). apply F.
  - intros id. rewrite (f_kind _ _ G). apply F.
  - intros sid. rewrite (f_body _ _ G). apply F.
  - intros H. by apply G, F.
Qed.

Lemma frame_label_of s s' id : frame s s' → label_of s' id = label_of s id.
Proof.
  intros F. unfold label_of. pose proof (f_kind _ _ F id) as H.
  destruct (heap s' !! id), (heap s !! id); simpl in *; try done.
  unfold kind in H. congruence.
Qed.

Lemma frame_is_a s s' L id : frame s s' → is_a L s' id ↔ is_a L s id.
Proof. intros F. unfold is_a. by rewrite (frame_label_of _ _ _ F). Qed.

Lemma frame_owned_by s s' sid id :
  frame s s' → owned_by sid s' id ↔ owned_by sid s id.
Proof. intros F. unfold owned_by. by rewrite (f_kind _ _ F). Qed.

Lemma frame_is_Some s s' id :
  frame s s' → is_Some (heap s' !! id) ↔ is_Some (heap s !! id).
Proof.
  intros F. pose proof (f_kind _ _ F id) as H.
  rewrite <- !(fmap_is_Some kind). by rewrite H.
Qed.

Lemma frame_consistent s s' : frame s s' → consistent s → consistent s'.
Proof.
  intros F C. pose proof F as [Fw Fs Fb Fn Fk Fp Fi]. destruct C.
  constructor.
  - by rewrite Fw.
  - intros id. rewrite Fn, (frame_is_Some _ _ _ F). auto.
  - intros id. rewrite Fw, Fn. auto.
  - auto.
  - intros sid p Hp. specialize (Fp sid). rewrite Hp in Fp. simpl in Fp.
    destruct (players s !! sid) as [q|] eqn:Hq; [|done].
    simpl in Fp. injection Fp as Fp. rewrite Fp, Fw, (frame_owned_by _ _ _ _ F).
    eauto.
  - intros id. rewrite Fw, (frame_is_a _ _ _ _ F). intros Hw Hl.
    destruct (c_body_player0 id Hw Hl) as (sid & p & Ho & Hp & Hb).
    specialize (Fp sid). rewrite Hp in Fp. simpl in Fp.
    destruct (players s' !! sid) as [q|] eqn:Hq; [|done].
    simpl in Fp. injection Fp as Fp.
    exists sid, q. rewrite (frame_owned_by _ _ _ _ F). split_and!; congruence.
  - by rewrite Fs.
  - intros id. rewrite Fs, Fw, (frame_is_a _ _ _ _ F). auto.
  - destruct c_blackBall0 as (k & Hk & Hu). exists k. split; [congruence|].
    intros id. rewrite Fw, (frame_is_a _ _ _ _ F). auto.
Qed.

Lemma frame_heap_alter f id s :
  (∀ b, kind (f b) = kind b) →
  (ids_ok s → ∀ b, heap s !! id = Some b → nonempty (lastTouchedBy (f b))) →
  frame s (with_heap (alter f id) s).
Proof.
  intros Hk Hn. constructor; try done; state_simpl.
  - intros i. rewrite lookup_alter. case_decide; [subst|done].
    destruct (heap s !! i); simpl; [by rewrite Hk | done].
  - intros Hok i b. state_simpl. rewrite lookup_alter. case_decide as Hi.
    + subst i. destruct (heap s !! id) as [b0|] eqn:Hb0; simpl; [|done].
      intros [= <-]. split; [by eapply Hn|].
      pose proof (Hk b0) as Hkb. unfold kind in Hkb.
      injection Hkb as _ ->. by eapply Hok.
    + apply Hok.
Qed.

Lemma frame_players_alter f sid s :
  (∀ p, body (f p) = body p) → frame s (with_players (alter f sid) s).
Proof.
  intros Hf. constructor; try done; state_simpl.
  intros i. rewrite lookup_alter. case_decide; [subst|done].
  destruct (players s !! i); simpl; [by rewrite Hf | done].
Qed.

Lemma frame_with_draws n s : frame s (with_draws n s).
Proof. by constructor. Qed.

Lemma frame_emit e s : frame s (emit e s).
Proof. by constructor. Qed.

Lemma frame_alter_position id p s :
  frame s (with_heap (alter (set_position p) id) s).
Proof.
  apply frame_heap_alter; [done|]. intros Hok b Hb. by apply (Hok id b).
Qed.

Lemma frame_alter_velocity id v s :
  frame s (with_heap (alter (set_velocity v) id) s).
Proof.
  apply frame_heap_alter; [done|]. intros Hok b Hb. by apply (Hok id b).
Qed.

Lemma frame_alter_lastTouchedBy id t s :
  (ids_ok s → nonempty t) →
  frame s (with_heap (alter (set_lastTouchedBy t) id) s).
Proof. intros Ht. apply frame_heap_alter; [done|]. intros Hok b _. auto. Qed.

Lemma frame_alter_move id m s : frame s (with_heap (alter (move m) id) s).
Proof.
  apply frame_heap_alter.
  - intros b. unfold move. by destruct (isStatic b).
  - intros Hok b Hb. unfold move. destruct (isStatic b); by apply (Hok id b).
Qed.

Lemma nonempty_None : nonempty None.
Proof. done. Qed.

(** Chains of elementary frame steps. *)
Ltac frame_tac :=
  repeat first
    [ apply frame_refl
    | eapply frame_trans;
      [| first [ apply frame_alter_position
               | apply frame_alter_velocity
               | apply frame_with_draws
               | apply frame_emit
               | apply frame_players_alter; done
               | apply frame_alter_lastTouchedBy; intros _; apply nonempty_None ] ] ].

Section Invariant.

Variable random : nat -> Q.
Variables cos sin : Q -> Q.

Lemma frame_respawnScoreBall ball s : frame s (respawnScoreBall random ball s).
Proof. unfold respawnScoreBall, Body_setPosition, Body_setVelocity. frame_tac. Qed.

Lemma frame_respawnPlayer ball s : frame s (respawnPlayer random ball s).
Proof. unfold respawnPlayer, Body_setPosition, Body_setVelocity. frame_tac. Qed.

Lemma frame_respawnBlackBall s : frame s (respawnBlackBall s).
Proof.
  unfold respawnBlackBall, Body_setPosition, Body_setVelocity.
  destruct (blackBall s); frame_tac.
Qed.

Lemma frame_handleHoleCollision ball s :
  frame s (handleHoleCollision random ball s).
Proof.
  unfold handleHoleCollision.
  repeat case_match; try apply frame_refl;
    (eapply frame_trans;
     [| first [ apply frame_respawnScoreBall | apply frame_respawnPlayer
              | apply frame_respawnBlackBall ] ]);
    frame_tac.
Qed.

Lemma frame_handlePair bodyA bodyB s :
  frame s (handlePair random bodyA bodyB s).
Proof.
  unfold handlePair.
  destruct (heap s !! bodyA) as [a|] eqn:Ha; [|apply frame_refl].
  destruct (heap s !! bodyB) as [b|] eqn:Hb; [|apply frame_refl].
  repeat case_decide; try apply frame_handleHoleCollision; try apply frame_refl.
  - apply frame_alter_lastTouchedBy. intros Hok. by apply (Hok bodyA a).
  - apply frame_alter_lastTouchedBy. intros Hok. by apply (Hok bodyB b).
Qed.

Lemma frame_collisionStart pairs s : frame s (collisionStart random pairs s).
Proof.
  unfold collisionStart. revert s.
  induction pairs as [|p pairs IH]; intros s; simpl; [apply frame_refl|].
  eapply frame_trans; [apply frame_handlePair | apply IH].
Qed.

Lemma frame_shoot sid data now s : frame s (shoot cos sin sid data now s).
Proof.
  unfold shoot. repeat case_match; try apply frame_refl. frame_tac.
Qed.

Lemma frame_integrate motion s : frame s (integrate motion s).
Proof.
  unfold integrate. generalize (world s) at 1. intros w.
  induction w as [|id w IH]; simpl.
  - destruct s; apply frame_refl.
  - eapply frame_trans; [apply IH|].
    apply (frame_alter_move id (motion id)
             (with_heap (fun h => foldr (fun i h' => alter (move (motion i)) i h') h w) s)).
Qed.

End Invariant.

(** ** Looking bodies up *)

Lemma is_a_lookup L s id :
  is_a L s id ↔ ∃ b, heap s !! id = Some b ∧ label b = L.
Proof.
  unfold is_a, label_of. destruct (heap s !! id) as [b|]; simpl.
  - split; [intros [= <-]; eauto | intros (b' & [= <-] & <-); done].
  - split; [done | intros (b' & ? & _); done].
Qed.

Lemma owned_by_lookup sid s id :
  owned_by sid s id ↔
  ∃ b, heap s !! id = Some b ∧ label b = PlayerBall ∧ playerId b = Some sid.
Proof.
  unfold owned_by, kind. destruct (heap s !! id) as [b|]; simpl.
  - split; [intros [= <- <-]; eauto | intros (b' & [= <-] & <- & <-); done].
  - split; [done | intros (b' & ? & _); done].
Qed.

Lemma owned_by_is_a sid s id : owned_by sid s id → is_a PlayerBall s id.
Proof.
  rewrite owned_by_lookup, is_a_lookup. intros (b & ? & ? & ?). eauto.
Qed.

Lemma is_a_same_heap L s s' id :
  heap s' !! id = heap s !! id → is_a L s' id ↔ is_a L s id.
Proof. intros H. unfold is_a, label_of. by rewrite H. Qed.

Lemma owned_by_same_heap sid s s' id :
  heap s' !! id = heap s !! id → owned_by sid s' id ↔ owned_by sid s id.
Proof. intros H. unfold owned_by. by rewrite H. Qed.

Lemma is_a_functional L1 L2 s id : is_a L1 s id → is_a L2 s id → L1 = L2.
Proof. unfold is_a. congruence. Qed.

Lemma consistent_startable s : consistent s → startable s.
Proof.
  intros []. destruct c_blackBall0 as (k & Hk & Hu).
  constructor; auto.
  - intros id Hw. rewrite c_scoreBalls0. tauto.
  - intros id Hw. rewrite Hk. split.
    + intros [= <-]. by apply Hu.
    + intros Hb. f_equal. symmetry. by apply Hu.
Qed.

(** In a consistent state the global [blackBall] is set. *)
Lemma consistent_blackBall s : consistent s → is_Some (blackBall s).
Proof. intros []. destruct c_blackBall0 as (k & Hk & _). eauto. Qed.

(** ** [startGame] *)

Lemma remove_all_spec l w :
  NoDup w →
  NoDup (remove_all l w) ∧ ∀ x, x ∈ remove_all l w ↔ x ∈ w ∧ x ∉ l.
Proof.
  unfold remove_all. revert w. induction l as [|a l IH]; intros w Hnd; simpl.
  - split; [done|]. intros x. split; [intros ?; split; [done|] | tauto].
    intros Hx. inversion Hx.
  - destruct (IH (remove_first a w) (remove_first_NoDup a w Hnd)) as [H1 H2].
    split; [done|]. intros x. rewrite H2, remove_first_elem_of, not_elem_of_cons by done.
    tauto.
Qed.

Lemma fold_World_remove l s :
  fold_left (fun st ball => World_remove ball st) l s
  = with_world (remove_all l) s.
Proof.
  unfold remove_all. revert s. induction l as [|a l IH]; intros s; simpl.
  - by destruct s.
  - by rewrite IH.
Qed.

Lemma clearBalls_fields s :
  heap (clearBalls s) = heap s ∧ players (clearBalls s) = players s ∧
  scoreBalls (clearBalls s) = [] ∧ blackBall (clearBalls s) = blackBall s ∧
  nextId (clearBalls s) = nextId s ∧ draws (clearBalls s) = draws s ∧
  log (clearBalls s) = log s ∧ gameActive (clearBalls s) = gameActive s.
Proof.
  unfold clearBalls. rewrite fold_World_remove. state_simpl.
  destruct (blackBall s) eqn:E; state_simpl; by rewrite ?E.
Qed.

Lemma clearBalls_world s :
  NoDup (world s) →
  NoDup (world (clearBalls s)) ∧
  ∀ x, x ∈ world (clearBalls s) ↔
       x ∈ world s ∧ (x ∉ scoreBalls s) ∧ (blackBall s ≠ Some x).
Proof.
  intros Hnd. unfold clearBalls. rewrite fold_World_remove. state_simpl.
  destruct (remove_all_spec (scoreBalls s) (world s) Hnd) as [H1 H2].
  destruct (blackBall s) as [k|]; state_simpl.
  - split; [by apply remove_first_NoDup|].
    intros x. rewrite remove_first_elem_of, H2 by done.
    split; [intros [[? ?] ?]; split_and!; [done..|congruence]
           | intros (? & ? & ?); split_and!; [done..|congruence]].
  - split; [done|]. intros x. rewrite H2. split; [intros []; done | tauto].
Qed.

Lemma startGame_blocks random n s :
  startGame random n s
  = finishStart (spawnScoreBalls random (Z.to_nat n) (clearBalls s)).
Proof. reflexivity. Qed.

Lemma spawnScoreBalls_spec random n s :
  let s' := spawnScoreBalls random n s in
  world s' = world s ++ seq (nextId s) n ∧
  scoreBalls s' = scoreBalls s ++ seq (nextId s) n ∧
  nextId s' = nextId s + n ∧
  players s' = players s ∧ blackBall s' = blackBall s ∧
  gameActive s' = gameActive s ∧ log s' = log s ∧
  draws s' = draws s + 3 * n ∧
  (∀ i, i < n →
     heap s' !! (nextId s + i) = Some (scoreBallBody random (draws s + 3 * i))) ∧
  (∀ id, ¬ (nextId s ≤ id < nextId s + n) → heap s' !! id = heap s !! id).
Proof.
  revert s. induction n as [|n IH]; intros s; cbn zeta.
  - simpl. rewrite !app_nil_r, !Nat.add_0_r. split_and!; try done. lia.
  - cbn [spawnScoreBalls]. unfold createScoreBall. cbn [alloc].
    match goal with |- context [spawnScoreBalls random n ?t] => set (s1 := t) end.
    destruct (IH s1) as (Hw & Hs & Hn & Hp & Hb & Hg & Hl & Hd & Hnew & Hold).
    subst s1. state_simpl.
    rewrite Hw, Hs, Hn, Hp, Hb, Hg, Hl, Hd.
    split_and!; try done.
    + by rewrite <- app_assoc.
    + by rewrite <- app_assoc.
    + lia.
    + lia.
    + intros i Hi. destruct i as [|i].
      * rewrite Nat.add_0_r, Hold by lia.
        rewrite lookup_insert_eq. unfold scoreBallBody.
        by rewrite !Nat.mul_0_r, !Nat.add_0_r.
      * replace (nextId s + S i) with (S (nextId s) + i) by lia.
        rewrite Hnew by lia. do 2 f_equal. lia.
    + intros id Hid. rewrite Hold by lia. apply lookup_insert_ne. lia.
Qed.

Lemma startGame_shape random n s :
  let s' := startGame random n s in
  let m := Z.to_nat n in
  let k := nextId s + m in
  world s' = world (clearBalls s) ++ seq (nextId s) m ++ [k] ∧
  scoreBalls s' = seq (nextId s) m ∧
  blackBall s' = Some k ∧ nextId s' = S k ∧
  players s' = set_score (fun _ => 0%Z) <$> players s ∧
  gameActive s' = true ∧ log s' = log s ∧ draws s' = draws s + 3 * m ∧
  (∀ i, i < m →
     heap s' !! (nextId s + i) = Some (scoreBallBody random (draws s + 3 * i))) ∧
  heap s' !! k = Some blackBallBody ∧
  (∀ id, ¬ (nextId s ≤ id ∧ id ≤ k)%nat → heap s' !! id = heap s !! id).
Proof.
  cbn zeta. rewrite startGame_blocks.
  destruct (clearBalls_fields s) as (Hh & Hp & Hs & Hb & Hn & Hd & Hl & Hg).
  destruct (spawnScoreBalls_spec random (Z.to_nat n) (clearBalls s))
    as (Hw' & Hs' & Hn' & Hp' & Hb' & Hg' & Hl' & Hd' & Hnew & Hold).
  cbn zeta in *. rewrite Hn in *. rewrite Hs, Hd in *.
  unfold finishStart, createBlackBall. state_simpl.
  rewrite Hw', Hs', Hn', Hp', Hp, Hl', Hl, Hd'.
  fold blackBallBody.
  split_and!; try done.
  - by rewrite <- app_assoc.
  - intros i Hi. rewrite lookup_insert_ne by lia. by apply Hnew.
  - apply lookup_insert_eq.
  - intros id Hid. rewrite lookup_insert_ne by lia.
    rewrite Hold by lia. by rewrite Hh.
Qed.

(** Every object of the store after [startGame] is an old one, one of the
    new ScoreBalls, or the new BlackBall. *)
Lemma startGame_heap_cases random n s :
  startable s →
  let s' := startGame random n s in
  let k := nextId s + Z.to_nat n in
  ∀ id,
    (id < nextId s ∧ heap s' !! id = heap s !! id) ∨
    ((nextId s ≤ id)%nat ∧ id < k ∧
       ∃ j, heap s' !! id = Some (scoreBallBody random j)) ∨
    (id = k ∧ heap s' !! id = Some blackBallBody) ∨
    (k < id ∧ heap s' !! id = None).
Proof.
  intros St. cbn zeta. intros id.
  destruct (startGame_shape random n s)
    as (Hw & Hs & Hb & Hn & Hp & Hg & Hl & Hd & Hnew & Hk & Hold).
  destruct (decide (id < nextId s)) as [H1|H1].
  { left. split; [done|]. apply Hold. lia. }
  destruct (decide (id < nextId s + Z.to_nat n)) as [H2|H2].
  { right; left. split_and!; [lia|done|].
    exists (draws s + 3 * (id - nextId s)).
    replace id with (nextId s + (id - nextId s)) at 1 by lia.
    apply Hnew. lia. }
  destruct (decide (id = nextId s + Z.to_nat n)) as [H3|H3].
  { right; right; left. by subst id. }
  right; right; right. split; [lia|].
  rewrite Hold by lia. apply eq_None_not_Some. rewrite (st_alloc _ St). lia.
Qed.

Lemma startGame_world random n s :
  startable s →
  let s' := startGame random n s in
  let k := nextId s + Z.to_nat n in
  ∀ id, id ∈ world s' ↔
    (id ∈ world s ∧ ¬ is_a ScoreBall s id ∧ ¬ is_a BlackBall s id) ∨
    ((nextId s ≤ id)%nat ∧ id < k) ∨ id = k.
Proof.
  intros St. cbn zeta. intros id.
  destruct (startGame_shape random n s) as (Hw & _).
  destruct (clearBalls_world s (st_nodup _ St)) as [_ Hw0].
  rewrite Hw, !elem_of_app, elem_of_seq, list_elem_of_singleton, Hw0.
  assert (id ∈ world s →
          ((id ∉ scoreBalls s) ∧ (blackBall s ≠ Some id)) ↔
          (¬ is_a ScoreBall s id ∧ ¬ is_a BlackBall s id)) as Heq.
  { intros Hi. rewrite (st_scoreBalls _ St id Hi), (st_blackBall _ St id Hi).
    tauto. }
  split.
  - intros [(Hi & ?)|[?|?]]; [left|right; left; lia|by right; right].
    split; [done|]. by apply Heq.
  - intros [(Hi & ?)|[?|?]]; [left|right; left; lia|by right; right].
    split; [done|]. by apply Heq.
Qed.

Lemma scoreBallBody_fields random j :
  kind (scoreBallBody random j) = (ScoreBall, None) ∧
  lastTouchedBy (scoreBallBody random j) = None ∧
  velocity (scoreBallBody random j) = zero ∧
  position (scoreBallBody random j)
  = Vector_create (inset_x (random j)) (inset_y (random (j + 1))).
Proof. done. Qed.

Lemma startGame_consistent random n s :
  startable s → consistent (startGame random n s).
Proof.
  intros St.
  pose proof (startGame_heap_cases random n s St) as Hheap.
  pose proof (startGame_world random n s St) as Hworld.
  destruct (startGame_shape random n s)
    as (Hw & Hs & Hb & Hn & Hp & Hg & Hl & Hd & Hnew & Hk & Hold).
  cbn zeta in *.
  set (s' := startGame random n s) in *.
  set (k := nextId s + Z.to_nat n) in *.
  assert (∀ id, nextId s ≤ id → id < k → is_a ScoreBall s' id) as Hfresh.
  { intros id ? ?. apply is_a_lookup.
    destruct (Hheap id) as [[? _]|[(_ & _ & j & Hj)|[[? _]|[? _]]]]; try lia.
    eauto. }
  assert (is_a BlackBall s' k) as Hblack.
  { apply is_a_lookup. eauto. }
  assert (∀ id, id < nextId s → heap s' !! id = heap s !! id) as Hsame.
  { intros id ?. apply Hold. lia. }
  constructor.
  - rewrite Hw. destruct (clearBalls_world s (st_nodup _ St)) as [Hnd0 Hw0].
    apply NoDup_app. split_and!; [done| |].
    + intros x Hx. apply Hw0 in Hx as (Hx & _). apply (st_world _ St) in Hx.
      rewrite elem_of_app, elem_of_seq, list_elem_of_singleton. lia.
    + apply NoDup_app. split_and!; [apply NoDup_seq| |apply NoDup_singleton].
      intros x. rewrite elem_of_seq, list_elem_of_singleton. lia.
  - intros id. rewrite Hn.
    destruct (Hheap id) as [[? Hi]|[(? & ? & j & Hi)|[[? Hi]|[? Hi]]]];
      rewrite Hi.
    + rewrite (st_alloc _ St). lia.
    + split; [lia | eauto].
    + split; [lia | eauto].
    + split; [intros []; done | lia].
  - intros id Hi. rewrite Hn. apply Hworld in Hi as [(Hi & _)|[?|?]]; [|lia..].
    apply (st_world _ St) in Hi. lia.
  - intros id b Hb'.
    destruct (Hheap id) as [[? Hi]|[(? & ? & j & Hi)|[[? Hi]|[? Hi]]]];
      rewrite Hi in Hb'.
    + by apply (st_ids _ St id).
    + injection Hb' as <-. done.
    + injection Hb' as <-. done.
    + done.
  - intros sid p. rewrite Hp, lookup_fmap. intros Hq.
    apply fmap_Some in Hq as (p0 & Hp0 & ->). cbn [body set_score].
    destruct (st_player_body _ St sid p0 Hp0) as [Hin Hown].
    pose proof (st_world _ St _ Hin) as Hlt.
    split.
    + apply Hworld. left. split_and!; [done|..];
        intros Hc; pose proof (is_a_functional _ _ _ _ Hc (owned_by_is_a _ _ _ Hown));
        done.
    + by rewrite (owned_by_same_heap _ s s') by auto.
  - intros id Hi Hpl. apply Hworld in Hi as [(Hi & _)|[[? ?]| ->]].
    + pose proof (st_world _ St _ Hi) as Hlt.
      rewrite (is_a_same_heap _ s s') in Hpl by auto.
      destruct (st_body_player _ St id Hi Hpl) as (sid & p & Hown & Hq & Hbody).
      exists sid, (set_score (fun _ => 0%Z) p). split_and!.
      * by rewrite (owned_by_same_heap _ s s') by auto.
      * by rewrite Hp, lookup_fmap, Hq.
      * done.
    + pose proof (is_a_functional _ _ _ _ Hpl (Hfresh id ltac:(done) ltac:(done))).
      done.
    + pose proof (is_a_functional _ _ _ _ Hpl Hblack). done.
  - rewrite Hs. apply NoDup_seq.
  - intros id. rewrite Hs, elem_of_seq. split.
    + intros [? ?]. split; [|by apply Hfresh]. apply Hworld. right; left. lia.
    + intros [Hi Hsc]. apply Hworld in Hi as [(Hi & Hns & _)|[[? ?]| ->]].
      * pose proof (st_world _ St _ Hi) as Hlt.
        rewrite (is_a_same_heap _ s s') in Hsc by auto. done.
      * lia.
      * pose proof (is_a_functional _ _ _ _ Hsc Hblack). done.
  - exists k. split; [done|]. intros id. split.
    + intros ->. split; [|done]. apply Hworld. by right; right.
    + intros [Hi Hbl]. apply Hworld in Hi as [(Hi & _ & Hnb)|[[? ?]| ->]].
      * pose proof (st_world _ St _ Hi) as Hlt.
        rewrite (is_a_same_heap _ s s') in Hbl by auto. done.
      * pose proof (is_a_functional _ _ _ _ Hbl (Hfresh id ltac:(done) ltac:(done))).
        done.
      * done.
Qed.

(** ** The state at start-up *)

Lemma boot_dom : dom (heap boot) = list_to_set (seq 0 10).
Proof. apply (bool_decide_unpack _). by vm_compute. Qed.

Lemma boot_bodies id b : heap boot !! id = Some b → static_body b.
Proof.
  intros Hb. assert (id < 10) as Hlt.
  { assert (id ∈ dom (heap boot)) as Hd by (apply elem_of_dom; eauto).
    rewrite boot_dom, elem_of_list_to_set, elem_of_seq in Hd. lia. }
  do 10 (destruct id as [|id];
         [vm_compute in Hb; injection Hb as <-; unfold static_body; cbn; auto|]).
  lia.
Qed.

Lemma boot_fields :
  world boot = seq 0 10 ∧ nextId boot = 10 ∧ players boot = ∅ ∧
  scoreBalls boot = [] ∧ blackBall boot = None ∧ log boot = [] ∧
  draws boot = 0 ∧ gameActive boot = false.
Proof. by vm_compute. Qed.

Lemma startable_boot : startable boot.
Proof.
  destruct boot_fields as (Hw & Hn & Hp & Hs & Hb & _).
  assert (∀ L id, is_a L boot id → L = Wall ∨ L = Hole) as Hlab.
  { intros L id (b & Hb' & <-)%is_a_lookup. by apply (boot_bodies id b Hb'). }
  constructor.
  - rewrite Hw. apply NoDup_seq.
  - intros id. rewrite <- elem_of_dom, boot_dom, Hn, elem_of_list_to_set, elem_of_seq.
    lia.
  - intros id. rewrite Hw, Hn, elem_of_seq. lia.
  - intros id b Hb'. destruct (boot_bodies id b Hb') as (_ & -> & ->).
    split; intros [=].
  - intros sid p. rewrite Hp, lookup_empty. intros [=].
  - intros id _ [?|?]%Hlab; discriminate.
  - intros id _. rewrite Hs. split.
    + intros []%elem_of_nil.
    + intros [?|?]%Hlab; discriminate.
  - intros id _. rewrite Hb. split.
    + intros [=].
    + intros [?|?]%Hlab; discriminate.
Qed.

Lemma consistent_initial random : consistent (initial random).
Proof. exact (startGame_consistent random 15 boot startable_boot). Qed.

(** ** Sessions: [joinGame], [autoJoin], [disconnect] *)

Lemma createPlayer_shape random sid s :
  let s' := snd (createPlayer random sid s) in
  heap s' = <[nextId s := playerBallBody random (draws s) sid]> (heap s) ∧
  world s' = world s ++ [nextId s] ∧
  players s' = <[sid := playerEntry random (draws s) sid (nextId s)]> (players s) ∧
  scoreBalls s' = scoreBalls s ∧ blackBall s' = blackBall s ∧
  gameActive s' = gameActive s ∧ log s' = log s ∧
  nextId s' = S (nextId s) ∧ draws s' = draws s + 3 ∧
  fst (createPlayer random sid s) = Hsl (Qfloor (random (draws s) * 360)).
Proof. done. Qed.

Lemma createPlayer_consistent random sid s :
  consistent s → players s !! sid = None → sid ≠ "" →
  consistent (snd (createPlayer random sid s)).
Proof.
  intros C Hfree Hsid.
  destruct (createPlayer_shape random sid s)
    as (Hh & Hw & Hp & Hs & Hb & _ & _ & Hn & _).
  cbn zeta in *. set (s' := snd (createPlayer random sid s)) in *.
  set (k := nextId s) in *.
  assert (∀ id, id < k → heap s' !! id = heap s !! id) as Hsame.
  { intros id ?. rewrite Hh. apply lookup_insert_ne. lia. }
  assert (owned_by sid s' k) as Hown.
  { apply owned_by_lookup. rewrite Hh, lookup_insert_eq. eauto. }
  assert (∀ id, id ∈ world s' ↔ id ∈ world s ∨ id = k) as Hworld.
  { intros id. by rewrite Hw, elem_of_app, list_elem_of_singleton. }
  assert (∀ L id, id ∈ world s → is_a L s' id ↔ is_a L s id) as Hlab.
  { intros L id Hi. apply is_a_same_heap, Hsame. by apply (c_world _ C). }
  constructor.
  - rewrite Hw. apply NoDup_app. split_and!.
    + apply C.
    + intros x Hx ->%list_elem_of_singleton. apply (c_world _ C) in Hx. lia.
    + apply NoDup_singleton.
  - intros id. rewrite Hn, Hh, lookup_insert. case_decide.
    + split; [lia | eauto].
    + rewrite (c_alloc _ C). fold k. lia.
  - intros id. rewrite Hn, Hworld. intros [Hi| ->]; [|lia].
    apply (c_world _ C) in Hi. lia.
  - intros id b. rewrite Hh, lookup_insert. case_decide.
    + intros [= <-]. split; [done|]. cbn. unfold nonempty. congruence.
    + apply (c_ids _ C).
  - intros sid' p. rewrite Hp, lookup_insert. case_decide as Hs'.
    + subst sid'. intros [= <-]. cbn [body playerEntry].
      split; [apply Hworld; by right | done].
    + intros Hq. destruct (c_player_body _ C sid' p Hq) as [Hi Ho].
      split; [apply Hworld; by left|].
      rewrite (owned_by_same_heap _ s s'); [done|].
      apply Hsame. by apply (c_world _ C).
  - intros id [Hi| ->]%Hworld Hpl.
    + rewrite Hlab in Hpl by done.
      destruct (c_body_player _ C id Hi Hpl) as (sid' & p & Ho & Hq & Hbody).
      exists sid', p. split_and!; [|rewrite Hp, lookup_insert_ne; [done|congruence]|done].
      rewrite (owned_by_same_heap _ s s'); [done|].
      apply Hsame. by apply (c_world _ C).
    + exists sid, (playerEntry random (draws s) sid k).
      split_and!; [done| by rewrite Hp, lookup_insert_eq | done].
  - rewrite Hs. apply C.
  - intros id. rewrite Hs, (c_scoreBalls _ C), Hworld. split.
    + intros [Hi Hl]. split; [by left | by apply Hlab].
    + intros [[Hi| ->] Hl]; [split; [done | by apply Hlab]|].
      pose proof (is_a_functional _ _ _ _ Hl (owned_by_is_a _ _ _ Hown)). done.
  - destruct (c_blackBall _ C) as (bb & Hbb & Hu). exists bb.
    split; [congruence|]. intros id. rewrite Hu, Hworld. split.
    + intros [Hi Hl]. split; [by left | by apply Hlab].
    + intros [[Hi| ->] Hl]; [split; [done | by apply Hlab]|].
      pose proof (is_a_functional _ _ _ _ Hl (owned_by_is_a _ _ _ Hown)). done.
Qed.

Lemma joinGame_consistent random sid s :
  consistent s → sid ≠ "" → consistent (joinGame random sid s).
Proof.
  intros C Hsid. unfold joinGame.
  destruct (players s !! sid) eqn:Hp; [done|].
  destruct (createPlayer random sid s) as [c s1] eqn:E.
  apply (frame_consistent s1); [apply frame_emit|].
  change s1 with (snd (c, s1)). rewrite <- E.
  by apply createPlayer_consistent.
Qed.

Lemma autoJoin_consistent random sid s :
  consistent s → sid ≠ "" → consistent (autoJoin random sid s).
Proof.
  intros C Hsid. unfold autoJoin.
  pose proof (frame_consistent _ _ (frame_emit (SocketEmit sid (init sid)) s) C) as C1.
  destruct (players (emit (SocketEmit sid (init sid)) s) !! sid) eqn:Hp; [done|].
  by apply createPlayer_consistent.
Qed.

Lemma owned_by_functional sid1 sid2 s id :
  owned_by sid1 s id → owned_by sid2 s id → sid1 = sid2.
Proof. unfold owned_by. congruence. Qed.

Lemma disconnect_consistent sid s :
  consistent s → consistent (disconnect sid s).
Proof.
  intros C. unfold disconnect.
  destruct (players s !! sid) as [p|] eqn:Hp; [|done].
  destruct (c_player_body _ C sid p Hp) as [Hin Hown].
  assert (∀ id, id ∈ remove_first (body p) (world s) ↔ id ∈ world s ∧ id ≠ body p)
    as Hworld.
  { intros id. apply remove_first_elem_of, C. }
  assert (∀ L id, L ≠ PlayerBall → is_a L s id → id ≠ body p) as Hother.
  { intros L id HL Hl ->. apply HL.
    apply (is_a_functional _ _ _ _ Hl (owned_by_is_a _ _ _ Hown)). }
  constructor; state_simpl.
  - apply remove_first_NoDup, C.
  - apply C.
  - intros id [Hi _]%Hworld. by apply (c_world _ C).
  - apply C.
  - intros sid' q. rewrite lookup_delete. case_decide as Hs'; [done|].
    intros Hq. destruct (c_player_body _ C sid' q Hq) as [Hi Ho].
    split; [|done]. apply Hworld. split; [done|]. intros Heq.
    rewrite Heq in Ho. apply Hs'. by apply (owned_by_functional _ _ s (body p)).
  - intros id [Hi Hne]%Hworld Hpl.
    destruct (c_body_player _ C id Hi Hpl) as (sid' & q & Ho & Hq & Hbody).
    exists sid', q. split_and!; [done| |done].
    rewrite lookup_delete_ne; [done|]. intros <-. congruence.
  - apply C.
  - intros id. rewrite (c_scoreBalls _ C), Hworld. split.
    + intros [Hi Hl]. split_and!; [done| |done]. by apply (Hother ScoreBall).
    + intros [[Hi _] Hl]. done.
  - destruct (c_blackBall _ C) as (bb & Hbb & Hu). exists bb.
    split; [done|]. intros id. rewrite Hu, Hworld. split.
    + intros [Hi Hl]. split_and!; [done| |done]. by apply (Hother BlackBall).
    + intros [[Hi _] Hl]. done.
Qed.

Lemma onStartGame_consistent random data s :
  consistent s → consistent (onStartGame random data s).
Proof.
  intros C. unfold onStartGame.
  eapply frame_consistent; [apply frame_emit|].
  by apply startGame_consistent, consistent_startable.
Qed.

Lemma handle_consistent random cos sin e s :
  consistent s → valid_event e → consistent (handle random cos sin e s).
Proof.
  intros C V. destruct e; cbn [handle valid_event] in *.
  - by apply onStartGame_consistent.
  - by apply joinGame_consistent.
  - by apply autoJoin_consistent.
  - eapply frame_consistent; [apply frame_shoot | done].
  - by apply disconnect_consistent.
  - eapply frame_consistent; [apply frame_integrate | done].
  - eapply frame_consistent; [apply frame_collisionStart | done].
Qed.

(** Every state the server can be in satisfies the invariant. *)
Lemma reachable_consistent random cos sin s :
  reachable random cos sin s → consistent s.
Proof.
  induction 1 as [|e s _ IH V].
  - exact (consistent_initial random).
  - by apply handle_consistent.
Qed.

(** ** Respawning *)

Lemma fmap_add_score_0 (o : option Player) : add_score 0 <$> o = o.
Proof. destruct o as [p|]; [|done]. simpl. by rewrite add_score_0. Qed.

Lemma respawned_fields p b :
  position (respawned p b) = p ∧ velocity (respawned p b) = zero ∧
  lastTouchedBy (respawned p b) = None ∧ kind (respawned p b) = kind b.
Proof. done. Qed.

Lemma respawn_heap p ball (h : gmap nat Body) :
  alter (set_lastTouchedBy None) ball
    (alter (set_velocity zero) ball (alter (set_position p) ball h))
  = alter (respawned p) ball h.
Proof.
  apply map_eq. intros id. destruct (decide (id = ball)) as [->|Hne].
  - rewrite !lookup_alter_eq. by destruct (h !! ball).
  - by rewrite !lookup_alter_ne.
Qed.

Lemma respawnScoreBall_spec random ball s :
  respawnScoreBall random ball s
  = with_heap (alter (respawned (inset_draw random (draws s))) ball)
      (with_draws (draws s + 2) s).
Proof.
  unfold respawnScoreBall. state_simpl. unfold with_heap. state_simpl.
  by rewrite respawn_heap.
Qed.

Lemma respawnPlayer_spec random ball s :
  respawnPlayer random ball s
  = with_heap (alter (respawned (inset_draw random (draws s))) ball)
      (with_draws (draws s + 2) s).
Proof.
  unfold respawnPlayer. state_simpl. unfold with_heap. state_simpl.
  by rewrite respawn_heap.
Qed.

Lemma respawnBlackBall_spec bb s :
  blackBall s = Some bb →
  respawnBlackBall s
  = with_heap
      (alter (respawned (Vector_create (TABLE_WIDTH / 2) (TABLE_HEIGHT / 2))) bb) s.
Proof.
  intros H. unfold respawnBlackBall. rewrite H. state_simpl.
  unfold with_heap. state_simpl. by rewrite respawn_heap.
Qed.

Lemma unit_interval_half : unit_interval half.
Proof. intros n. unfold half. split; [discriminate | reflexivity]. Qed.

(** ** Hole rules *)

Lemma consistent_truthy s id b :
  consistent s → heap s !! id = Some b →
  truthy (lastTouchedBy b) = lastTouchedBy b.
Proof. intros C Hb. apply truthy_nonempty. by apply (c_ids _ C id b). Qed.

(** C4.  A ScoreBall that meets a hole: the score of the player named by
    [lastTouchedBy] grows by exactly 1 when that player has a session, and
    no score changes otherwise; in every case the ball is moved to a point
    of the inset rectangle, with zero velocity and [lastTouchedBy] null,
    and it stays in the world (and in [scoreBalls]). *)
Theorem scoreBall_hole random s ball b :
  unit_interval random → consistent s → ball ∈ world s →
  heap s !! ball = Some b → label b = ScoreBall →
  let s' := handleHoleCollision random ball s in
  (∀ sid, players s' !! sid
          = add_score (if decide (lastTouchedBy b = Some sid) then 1 else 0)
              <$> players s !! sid) ∧
  (∀ t p, lastTouchedBy b = Some t → players s !! t = Some p →
          score <$> players s' !! t = Some (score p + 1)%Z) ∧
  (∀ sid, lastTouchedBy b ≠ Some sid → players s' !! sid = players s !! sid) ∧
  (∃ b', heap s' !! ball = Some b' ∧ in_inset (position b') ∧
         velocity b' = zero ∧ lastTouchedBy b' = None ∧ kind b' = kind b) ∧
  (∀ id, id ≠ ball → heap s' !! id = heap s !! id) ∧
  world s' = world s ∧ scoreBalls s' = scoreBalls s ∧ ball ∈ world s'.
Proof.
  intros Hr C Hin Hb Hl. cbn zeta.
  assert (∀ sid, players (handleHoleCollision random ball s) !! sid
          = add_score (if decide (lastTouchedBy b = Some sid) then 1 else 0)
              <$> players s !! sid) as Hplayers.
  { intros sid. unfold handleHoleCollision. rewrite Hb, Hl.
    rewrite (consistent_truthy s ball b C Hb), respawnScoreBall_spec.
    destruct (lastTouchedBy b) as [t|]; state_simpl.
    - destruct (players s !! t) as [p|] eqn:Hp; state_simpl.
      + rewrite lookup_alter. destruct (decide (t = sid)) as [->|Hne].
        * by rewrite decide_True.
        * rewrite decide_False by congruence. by rewrite fmap_add_score_0.
      + case_decide as Hd; [|by rewrite fmap_add_score_0].
        injection Hd as ->. by rewrite Hp.
    - rewrite decide_False by done. by rewrite fmap_add_score_0. }
  assert (heap (handleHoleCollision random ball s)
          = alter (respawned (inset_draw random
                     (draws (handleHoleCollision random ball s) - 2))) ball (heap s)
          ∧ world (handleHoleCollision random ball s) = world s
          ∧ scoreBalls (handleHoleCollision random ball s) = scoreBalls s)
    as (Hheap & Hw & Hs).
  { unfold handleHoleCollision. rewrite Hb, Hl, respawnScoreBall_spec.
    repeat case_match; state_simpl;
      by replace (draws s + 2 - 2) with (draws s) by lia. }
  split_and!.
  - done.
  - intros t p Ht Hp. rewrite Hplayers, Hp, decide_True by done. done.
  - intros sid Hne. rewrite Hplayers, decide_False by done.
    by rewrite fmap_add_score_0.
  - eexists. rewrite Hheap, lookup_alter_eq, Hb. split; [done|].
    split_and!; try done. by apply inset_point.
  - intros id Hne. by rewrite Hheap, lookup_alter_ne.
  - done.
  - done.
  - by rewrite Hw.
Qed.

(** In a consistent state every PlayerBall of the world belongs to a
    session; this is the guard [players[victimId]] of the PlayerBall rule. *)
Lemma playerBall_owner s ball b :
  consistent s → ball ∈ world s → heap s !! ball = Some b →
  label b = PlayerBall →
  ∃ victim pv, playerId b = Some victim ∧ players s !! victim = Some pv ∧
               body pv = ball.
Proof.
  intros C Hin Hb Hl.
  destruct (c_body_player _ C ball Hin) as (sid & p & Ho & Hp & Hbody).
  { apply is_a_lookup. eauto. }
  apply owned_by_lookup in Ho as (b' & Hb' & _ & Hpid).
  exists sid, p. split_and!; congruence.
Qed.


(** In a consistent state the only BlackBall of the world is the one the
    global [blackBall] refers to, so [respawnBlackBall] moves the ball that
    fell into the hole. *)
Lemma blackBall_global s ball b :
  consistent s → ball ∈ world s → heap s !! ball = Some b →
  label b = BlackBall → blackBall s = Some ball.
Proof.
  intros C Hin Hb Hl. destruct (c_blackBall _ C) as (k & Hk & Hu).
  rewrite Hk. f_equal. symmetry. apply Hu. split; [done|].
  apply is_a_lookup. eauto.
Qed.

(** C5.  The BlackBall that meets a hole: when [lastTouchedBy] names a
    player with a session, that player's score becomes 0 whatever it was
    (an assignment); nobody else's score changes.  The ball is put back at
    the table centre (800, 450) with zero velocity and [lastTouchedBy]
    null. *)
Theorem blackBall_hole random s ball b :
  consistent s → ball ∈ world s → heap s !! ball = Some b →
  label b = BlackBall →
  let s' := handleHoleCollision random ball s in
  (∀ t p, lastTouchedBy b = Some t → players s !! t = Some p →
          players s' !! t = Some (set_score (fun _ => 0%Z) p) ∧
          score <$> players s' !! t = Some 0%Z) ∧
  (∀ sid, lastTouchedBy b ≠ Some sid → players s' !! sid = players s !! sid) ∧
  (∃ b', heap s' !! ball = Some b' ∧ at_center (position b') ∧
         velocity b' = zero ∧ lastTouchedBy b' = None ∧ kind b' = kind b) ∧
  (∀ id, id ≠ ball → heap s' !! id = heap s !! id) ∧
  dom (players s') = dom (players s) ∧
  world s' = world s ∧ blackBall s' = Some ball.
Proof.
  intros C Hin Hb Hl. cbn zeta.
  pose proof (blackBall_global s ball b C Hin Hb Hl) as Hg.
  assert (∀ sid, players (handleHoleCollision random ball s) !! sid
          = (if decide (lastTouchedBy b = Some sid)
             then set_score (fun _ => 0%Z) <$> players s !! sid
             else players s !! sid)) as Hplayers.
  { intros sid. unfold handleHoleCollision. rewrite Hb, Hl.
    rewrite (consistent_truthy s ball b C Hb).
    destruct (lastTouchedBy b) as [t|].
    - destruct (players s !! t) as [p|] eqn:Hp.
      + rewrite (respawnBlackBall_spec ball) by done. state_simpl.
        rewrite lookup_alter. destruct (decide (t = sid)) as [->|Hne].
        * by rewrite decide_True.
        * by rewrite decide_False by congruence.
      + rewrite (respawnBlackBall_spec ball) by done. state_simpl.
        case_decide as Hd; [|done]. injection Hd as ->. by rewrite Hp.
    - rewrite (respawnBlackBall_spec ball) by done. state_simpl.
      by rewrite decide_False. }
  assert (heap (handleHoleCollision random ball s)
          = alter (respawned (Vector_create (TABLE_WIDTH / 2) (TABLE_HEIGHT / 2)))
              ball (heap s)
          ∧ world (handleHoleCollision random ball s) = world s
          ∧ blackBall (handleHoleCollision random ball s) = Some ball)
    as (Hheap & Hw & Hbb).
  { unfold handleHoleCollision. rewrite Hb, Hl.
    repeat case_match; by rewrite (respawnBlackBall_spec ball). }
  split_and!.
  - intros t p Ht Hp. rewrite Hplayers, decide_True, Hp by done. done.
  - intros sid Hne. by rewrite Hplayers, decide_False.
  - eexists. rewrite Hheap, lookup_alter_eq, Hb. split; [done|].
    split_and!; [apply center_point | done..].
  - intros id Hne. by rewrite Hheap, lookup_alter_ne.
  - apply set_eq. intros sid. rewrite !elem_of_dom, Hplayers.
    case_decide; [by rewrite fmap_is_Some | done].
  - done.
  - done.
Qed.

(** ** Touch attribution *)

(** C1 (as amended).  For a contact pair without a hole the listener
    looks for the toucher: [bodyA] if it is a PlayerBall, else [bodyB] if
    it is one.  The body on the other side gets the toucher's [playerId]
    as [lastTouchedBy] unless it is a Wall; this includes the pair of two
    PlayerBalls, where [bodyB] is attributed to [bodyA]'s player.  A pair
    without a PlayerBall, or with a Wall opposite the toucher, changes
    nothing, and a pair with a hole is handed to [handleHoleCollision]
    instead.  No third body and no session is touched. *)
Theorem touch_attribution random s bodyA bodyB a b :
  heap s !! bodyA = Some a → heap s !! bodyB = Some b → bodyA ≠ bodyB →
  let s' := handlePair random bodyA bodyB s in
  (label a = Hole → s' = handleHoleCollision random bodyB s) ∧
  (label a ≠ Hole → label b = Hole → s' = handleHoleCollision random bodyA s) ∧
  (label a = PlayerBall → label b ≠ Wall → label b ≠ Hole →
     heap s' !! bodyB = Some (set_lastTouchedBy (playerId a) b)) ∧
  (label a = PlayerBall → label b ≠ PlayerBall → label b ≠ Hole →
     heap s' !! bodyA = Some a) ∧
  (label a ≠ PlayerBall → label b = PlayerBall →
   label a ≠ Wall → label a ≠ Hole →
     heap s' !! bodyA = Some (set_lastTouchedBy (playerId b) a) ∧
     heap s' !! bodyB = Some b) ∧
  (label a = PlayerBall → label b = Wall → s' = s) ∧
  (label a = Wall → label b = PlayerBall → s' = s) ∧
  (label a ≠ PlayerBall → label b ≠ PlayerBall →
   label a ≠ Hole → label b ≠ Hole → s' = s) ∧
  (label a ≠ Hole → label b ≠ Hole →
     (∀ id, id ≠ bodyA → id ≠ bodyB → heap s' !! id = heap s !! id) ∧
     players s' = players s ∧ world s' = world s).
Proof.
  intros Ha Hb Hne. cbn zeta. unfold handlePair. rewrite Ha, Hb.
  split_and!.
  - intros Hl. by rewrite decide_True.
  - intros Hl Hl'. by rewrite decide_False, decide_True.
  - intros Hl Hw Hh.
    rewrite (decide_False (P := label a = Hole)) by congruence.
    rewrite (decide_False (P := label b = Hole)) by done.
    rewrite (decide_True (P := label a = PlayerBall)) by done.
    rewrite decide_True by done. state_simpl.
    by rewrite lookup_alter_eq, Hb.
  - intros Hl Hl' Hh.
    rewrite (decide_False (P := label a = Hole)) by congruence.
    rewrite (decide_False (P := label b = Hole)) by done.
    rewrite (decide_True (P := label a = PlayerBall)) by done.
    case_decide; [|done]. state_simpl. by rewrite lookup_alter_ne.
  - intros Hl Hl' Hw Hh.
    rewrite (decide_False (P := label a = Hole)) by done.
    rewrite (decide_False (P := label b = Hole)) by congruence.
    rewrite (decide_False (P := label a = PlayerBall)) by done.
    rewrite (decide_True (P := label b = PlayerBall)) by done.
    rewrite decide_True by done. state_simpl.
    rewrite lookup_alter_eq, Ha. split; [done|]. by rewrite lookup_alter_ne.
  - intros Hl Hl'.
    rewrite (decide_False (P := label a = Hole)) by congruence.
    rewrite (decide_False (P := label b = Hole)) by congruence.
    rewrite (decide_True (P := label a = PlayerBall)) by done.
    rewrite decide_False; [done|]. intros [? _]. done.
  - intros Hl Hl'.
    rewrite (decide_False (P := label a = Hole)) by congruence.
    rewrite (decide_False (P := label b = Hole)) by congruence.
    rewrite (decide_False (P := label a = PlayerBall)) by congruence.
    rewrite (decide_True (P := label b = PlayerBall)) by done.
    rewrite decide_False; [done|]. intros [? _]. done.
  - intros Hl Hl' Hh Hh'.
    rewrite (decide_False (P := label a = Hole)) by done.
    rewrite (decide_False (P := label b = Hole)) by done.
    rewrite (decide_False (P := label a = PlayerBall)) by done.
    by rewrite (decide_False (P := label b = PlayerBall)).
  - intros Hh Hh'.
    rewrite (decide_False (P := label a = Hole)) by done.
    rewrite (decide_False (P := label b = Hole)) by done.
    repeat case_decide; state_simpl; split_and!; try done;
      intros id ? ?; by rewrite lookup_alter_ne.
Qed.

(** C1, as the specification words it, fails: in a pair of two PlayerBalls
    the second ball is attributed to the first ball's player. *)
Lemma touch_both_players_counterexample :
  label_of two_players 26 = Some PlayerBall ∧
  label_of two_players 27 = Some PlayerBall ∧
  lastTouchedBy <$> heap two_players !! 27 = Some None ∧
  lastTouchedBy <$> heap (handlePair half 26 27 two_players) !! 27
  = Some (Some "a").
Proof. by vm_compute. Qed.

(** ** The input gate: [shoot] *)

Lemma shoot_unknown cos sin s sid data now :
  players s !! sid = None → shoot cos sin sid data now s = s.
Proof. intros H. unfold shoot. by rewrite H. Qed.

Lemma shoot_dropped cos sin s sid p data now :
  players s !! sid = Some p → (now < cooldown p)%Z →
  shoot cos sin sid data now s = s.
Proof. intros H Hlt. unfold shoot. rewrite H. rewrite decide_False; [done|lia]. Qed.

Lemma shoot_accepted cos sin s sid p b data now :
  players s !! sid = Some p → heap s !! body p = Some b →
  (cooldown p ≤ now)%Z →
  shoot cos sin sid data now s
  = emit (SocketEmit sid (cooldownNotify COOLDOWN_TIME))
      (with_players (alter (set_cooldown (now + COOLDOWN_TIME)) sid)
         (emit (ApplyForce (body p) (position b)
                  (Vector_create
                     (cos (or_Q (angle data) 0) * (or_Q (force data) 0 * (3 # 10)))
                     (sin (or_Q (angle data) 0) * (or_Q (force data) 0 * (3 # 10)))))
               s)).
Proof.
  intros H Hb Hle. unfold shoot. rewrite H, Hb. by rewrite decide_True.
Qed.

Lemma consistent_player_heap s sid p :
  consistent s → players s !! sid = Some p →
  ∃ b, heap s !! body p = Some b ∧ label b = PlayerBall ∧
       playerId b = Some sid.
Proof.
  intros C Hp. destruct (c_player_body _ C sid p Hp) as [_ Ho].
  by apply owned_by_lookup.
Qed.

(** C6.  For a player with a session: a [shoot] that arrives strictly
    before [cooldown] changes nothing (no force, no notification); an
    accepted one applies the force (cos a * f * 0.3, sin a * f * 0.3) at
    the position of the player's body, where [f] and [a] are the [force]
    and the [angle] of the payload (0 for a field that is absent or zero),
    sets [cooldown] to [now + 750] and sends [cooldownNotify] with the
    duration 750 to the sender; any further [shoot] before [now + 750] is
    dropped, so the force is applied once. *)
Theorem shoot_cooldown cos sin s sid p data now :
  consistent s → players s !! sid = Some p →
  let s' := shoot cos sin sid data now s in
  let f := match force data with
           | Some q => if Qeq_bool q 0 then 0%Q else q
           | None => 0%Q
           end in
  let a := match angle data with
           | Some q => if Qeq_bool q 0 then 0%Q else q
           | None => 0%Q
           end in
  ((now < cooldown p)%Z → s' = s) ∧
  ((cooldown p ≤ now)%Z →
     ∃ b F,
       heap s !! body p = Some b ∧
       log s' = SocketEmit sid (cooldownNotify 750)
                :: ApplyForce (body p) (position b) F :: log s ∧
       F = Vector_create (cos a * (f * (3 # 10))) (sin a * (f * (3 # 10))) ∧
       (vx F == cos a * f * (3 # 10))%Q ∧ (vy F == sin a * f * (3 # 10))%Q ∧
       players s' !! sid = Some (set_cooldown (now + 750) p) ∧
       (∀ sid', sid' ≠ sid → players s' !! sid' = players s !! sid') ∧
       heap s' = heap s ∧ world s' = world s ∧
       forces_applied s' = S (forces_applied s) ∧
       (∀ data2 now2, (now2 < now + 750)%Z →
          shoot cos sin sid data2 now2 s' = s' ∧
          forces_applied (shoot cos sin sid data2 now2 s')
          = S (forces_applied s)) ∧
       (∀ fq aq, force data = Some fq → angle data = Some aq →
          ¬ (fq == 0)%Q → ¬ (aq == 0)%Q →
          F = Vector_create (cos aq * (fq * (3 # 10)))
                            (sin aq * (fq * (3 # 10)))) ∧
       (∀ fq, force data = Some fq → angle data = None → ¬ (fq == 0)%Q →
          F = Vector_create (cos 0%Q * (fq * (3 # 10)))
                            (sin 0%Q * (fq * (3 # 10)))) ∧
       cooldown <$> players s' !! sid = Some (now + 750)%Z ∧
       score <$> players s' !! sid = Some (score p)).
Proof.
  intros C Hp. cbn zeta. split.
  - by apply shoot_dropped.
  - intros Hle.
    destruct (consistent_player_heap s sid p C Hp) as (b & Hb & _).
    rewrite (shoot_accepted cos sin s sid p b data now Hp Hb Hle).
    eexists b, _. state_simpl. unfold COOLDOWN_TIME, or_Q.
    assert (alter (set_cooldown (now + 750)) sid (players s) !! sid
            = Some (set_cooldown (now + 750) p)) as Hnew.
    { by rewrite lookup_alter_eq, Hp. }
    split_and!; try done.
    + simpl. ring.
    + simpl. ring.
    + intros sid' Hne. by rewrite lookup_alter_ne.
    + intros data2 now2 Hlt.
      rewrite (shoot_dropped cos sin _ sid (set_cooldown (now + 750) p));
        done.
    + intros fq aq -> -> Hf Ha.
      destruct (Qeq_bool fq 0) eqn:Ef; [by apply Qeq_bool_eq in Ef|].
      destruct (Qeq_bool aq 0) eqn:Ea; [by apply Qeq_bool_eq in Ea|].
      done.
    + intros fq -> -> Hf.
      destruct (Qeq_bool fq 0) eqn:Ef; [by apply Qeq_bool_eq in Ef|].
      done.
    + by rewrite Hnew.
    + by rewrite Hnew.
Qed.

(** C9.  A [shoot] or a [disconnect] for an id without a session leaves
    the state as it is: no body, no session and no entry of the log
    changes.  A missing [force] or [angle] is read as 0: the handler does
    what it does for the value 0, which for a missing [force] is a force
    whose two components are 0, and for a missing [angle] the force along
    the angle 0. *)
Theorem unknown_player_noop cos sin s sid :
  (players s !! sid = None →
     (∀ data now, shoot cos sin sid data now s = s) ∧ disconnect sid s = s) ∧
  (∀ a now, shoot cos sin sid {| force := None; angle := a |} now s
            = shoot cos sin sid {| force := Some 0%Q; angle := a |} now s) ∧
  (∀ f now, shoot cos sin sid {| force := f; angle := None |} now s
            = shoot cos sin sid {| force := f; angle := Some 0%Q |} now s) ∧
  (∀ p a now, consistent s → players s !! sid = Some p →
     (cooldown p ≤ now)%Z →
     ∃ b F, log (shoot cos sin sid {| force := None; angle := a |} now s)
            = SocketEmit sid (cooldownNotify 750)
              :: ApplyForce (body p) (position b) F :: log s ∧
            (vx F == 0)%Q ∧ (vy F == 0)%Q) ∧
  (∀ p f now, consistent s → players s !! sid = Some p →
     (cooldown p ≤ now)%Z →
     ∃ b, log (shoot cos sin sid {| force := f; angle := None |} now s)
          = SocketEmit sid (cooldownNotify 750)
            :: ApplyForce (body p) (position b)
                 (Vector_create (cos 0%Q * (or_Q f 0 * (3 # 10)))
                                (sin 0%Q * (or_Q f 0 * (3 # 10))))
            :: log s).
Proof.
  split_and!.
  - intros Hp. split.
    + intros data now. by apply shoot_unknown.
    + unfold disconnect. by rewrite Hp.
  - done.
  - done.
  - intros p a now C Hp Hle.
    destruct (consistent_player_heap s sid p C Hp) as (b & Hb & _).
    rewrite (shoot_accepted cos sin s sid p b _ now Hp Hb Hle).
    eexists b, _. state_simpl. split_and!; [done|..]; simpl; ring.
  - intros p f now C Hp Hle.
    destruct (consistent_player_heap s sid p C Hp) as (b & Hb & _).
    rewrite (shoot_accepted cos sin s sid p b _ now Hp Hb Hle).
    by exists b.
Qed.

(** ** Counting the bodies of the world *)

Lemma count_scoreBalls s :
  consistent s → count_label ScoreBall s = length (scoreBalls s).
Proof.
  intros C. unfold count_label. apply Permutation_length, NoDup_Permutation.
  - apply NoDup_filter, C.
  - apply C.
  - intros id. rewrite list_elem_of_filter, (c_scoreBalls _ C). tauto.
Qed.

Lemma count_blackBall s : consistent s → count_label BlackBall s = 1.
Proof.
  intros C. unfold count_label. destruct (c_blackBall _ C) as (k & _ & Hu).
  rewrite (NoDup_only (filter (is_a BlackBall s) (world s)) k); [done| |].
  - apply NoDup_filter, C.
  - intros id. rewrite list_elem_of_filter, Hu. tauto.
Qed.

Lemma owned_filter s sid p :
  consistent s → players s !! sid = Some p →
  filter (owned_by sid s) (world s) = [body p].
Proof.
  intros C Hp. apply NoDup_only; [apply NoDup_filter, C|].
  intros id. rewrite list_elem_of_filter. split.
  - intros [Ho Hi].
    destruct (c_body_player _ C id Hi (owned_by_is_a _ _ _ Ho))
      as (sid' & p' & Ho' & Hp' & Hbody).
    assert (sid' = sid) as -> by (by apply (owned_by_functional _ _ s id)).
    congruence.
  - intros ->. destruct (c_player_body _ C sid p Hp). done.
Qed.

(** ** [joinGame] *)

Lemma joinGame_known random sid s :
  is_Some (players s !! sid) → joinGame random sid s = s.
Proof. intros [p Hp]. unfold joinGame. by rewrite Hp. Qed.

Lemma joinGame_fresh random sid s :
  players s !! sid = None →
  joinGame random sid s
  = emit (SocketEmit sid (joined sid (Hsl (Qfloor (random (draws s) * 360)))))
      (snd (createPlayer random sid s)).
Proof. intros Hp. unfold joinGame. by rewrite Hp. Qed.

(** C7.  [joinGame] is idempotent: a second [joinGame] for an id that has
    a session changes nothing, so that after two calls the world holds
    exactly one PlayerBall of that id and [players] has its entry; when
    the id was new, the entry has score 0 and a cooldown (0) that any
    clock value has passed, and one body and one entry were added. *)
Theorem joinGame_idempotent random s sid :
  consistent s → sid ≠ "" →
  let s1 := joinGame random sid s in
  let s2 := joinGame random sid s1 in
  s2 = s1 ∧
  length (filter (owned_by sid s2) (world s2)) = 1 ∧
  (∃ p, players s2 !! sid = Some p ∧ filter (owned_by sid s2) (world s2) = [body p]) ∧
  (players s !! sid = None →
     (∃ p, players s2 !! sid = Some p ∧ score p = 0%Z ∧ cooldown p = 0%Z ∧
           ∀ now, (0 ≤ now)%Z → (cooldown p ≤ now)%Z) ∧
     world s2 = world s ++ [nextId s] ∧
     size (players s2) = S (size (players s)) ∧
     log s2 = SocketEmit sid (joined sid (Hsl (Qfloor (random (draws s) * 360))))
              :: log s).
Proof.
  intros C Hsid. cbn zeta.
  pose proof (joinGame_consistent random sid s C Hsid) as C1.
  assert (is_Some (players (joinGame random sid s) !! sid)) as Hsome.
  { destruct (players s !! sid) as [p|] eqn:Hp.
    - rewrite joinGame_known by eauto. eauto.
    - rewrite joinGame_fresh by done. state_simpl.
      destruct (createPlayer_shape random sid s) as (_ & _ & -> & _).
      rewrite lookup_insert_eq. eauto. }
  rewrite (joinGame_known random sid (joinGame random sid s) Hsome).
  destruct Hsome as [p1 Hp1].
  pose proof (owned_filter _ sid p1 C1 Hp1) as Hfilter.
  split_and!.
  - done.
  - by rewrite Hfilter.
  - eauto.
  - intros Hfree. rewrite joinGame_fresh in * by done. state_simpl.
    destruct (createPlayer_shape random sid s)
      as (_ & Hw & Hp & _ & _ & _ & Hl & _).
    cbn zeta in *. rewrite Hw, Hp, Hl. split_and!; try done.
    + eexists. rewrite lookup_insert_eq. split; [done|].
      cbn. split_and!; done.
    + by apply map_size_insert_None.
Qed.

(** ** Starting a game *)

(** C8.  [startGame], called in any state the server can be in, replaces
    the balls: every ScoreBall and the BlackBall of the old world leave it,
    [ballCount] new ScoreBalls and one new BlackBall (at the centre, never
    touched) enter it, and these are the only new bodies.  All other
    bodies, the PlayerBalls among them, stay in the world and no object
    that existed before is modified.  The sessions stay, with body,
    cooldown, name and colour as they were and the score set to 0.
    Afterwards [gameActive] holds and the world has exactly one
    BlackBall. *)
Theorem startGame_frame random n s :
  consistent s →
  let s' := startGame random n s in
  (∀ id, id ∈ world s → is_a ScoreBall s id ∨ is_a BlackBall s id →
         id ∉ world s') ∧
  (∀ id, id ∈ world s → ¬ is_a ScoreBall s id → ¬ is_a BlackBall s id →
         id ∈ world s') ∧
  (∀ id, id < nextId s → heap s' !! id = heap s !! id) ∧
  (∀ id, id ∈ world s' → id ∉ world s →
         nextId s ≤ id ∧
         ∃ b, heap s' !! id = Some b ∧ lastTouchedBy b = None ∧
              (label b = ScoreBall ∨ label b = BlackBall)) ∧
  count_label ScoreBall s' = Z.to_nat n ∧
  length (scoreBalls s') = Z.to_nat n ∧
  count_label BlackBall s' = 1 ∧
  (∃ k b, blackBall s' = Some k ∧ k ∈ world s' ∧ (k ∉ world s) ∧
          heap s' !! k = Some b ∧ label b = BlackBall ∧
          at_center (position b) ∧ lastTouchedBy b = None) ∧
  players s' = set_score (fun _ => 0%Z) <$> players s ∧
  (∀ sid p, players s !! sid = Some p →
     players s' !! sid = Some (set_score (fun _ => 0%Z) p) ∧
     body p ∈ world s' ∧ heap s' !! body p = heap s !! body p) ∧
  gameActive s' = true ∧
  consistent s' ∧
  (∀ sid p, players s !! sid = Some p →
     score <$> players s' !! sid = Some 0%Z) ∧
  (∀ sid p', players s' !! sid = Some p' →
     score p' = 0%Z ∧
     ∃ p, players s !! sid = Some p ∧ body p' = body p ∧
          cooldown p' = cooldown p ∧ name p' = name p ∧ color p' = color p) ∧
  dom (players s') = dom (players s).
Proof.
  intros C. cbn zeta.
  pose proof (consistent_startable s C) as St.
  pose proof (startGame_consistent random n s St) as C'.
  pose proof (startGame_heap_cases random n s St) as Hheap.
  pose proof (startGame_world random n s St) as Hworld.
  destruct (startGame_shape random n s)
    as (Hw & Hs & Hb & Hn & Hp & Hg & Hl & Hd & Hnew & Hk & Hold).
  cbn zeta in *.
  set (s' := startGame random n s) in *.
  set (k := nextId s + Z.to_nat n) in *.
  assert (∀ id, id < nextId s → heap s' !! id = heap s !! id) as Hsame.
  { intros id ?. apply Hold. lia. }
  split_and!.
  - intros id Hi Hlab [(_ & Hns & Hnb)|[[? ?]| ->]]%Hworld.
    + tauto.
    + apply (c_world _ C) in Hi. lia.
    + apply (c_world _ C) in Hi. lia.
  - intros id Hi Hns Hnb. apply Hworld. by left.
  - done.
  - intros id Hi Hni.
    apply Hworld in Hi as [(Hi & _)|Hi]; [done|].
    split; [lia|].
    destruct (Hheap id) as [[? _]|[(_ & _ & j & Hj)|[[_ Hj]|[? _]]]]; try lia.
    + eexists. split; [done|]. split; [done | by left].
    + eexists. split; [done|]. split; [done | by right].
  - by rewrite count_scoreBalls, Hs, length_seq.
  - by rewrite Hs, length_seq.
  - by apply count_blackBall.
  - exists k, blackBallBody.
    split_and!; [done| | |done|done|apply center_point|done].
    + apply Hworld. by right; right.
    + intros Hi. apply (c_world _ C) in Hi. lia.
  - done.
  - intros sid p Hq. rewrite Hp, lookup_fmap, Hq.
    destruct (c_player_body _ C sid p Hq) as [Hi Ho].
    pose proof (c_world _ C _ Hi) as Hlt.
    split_and!; [done| |by apply Hsame].
    apply Hworld. left. split_and!; [done|..];
      intros Hc; pose proof (is_a_functional _ _ _ _ Hc (owned_by_is_a _ _ _ Ho));
      done.
  - done.
  - done.
  - intros sid p Hq. by rewrite Hp, lookup_fmap, Hq.
  - intros sid p'. rewrite Hp, lookup_fmap. intros Hq.
    apply fmap_Some in Hq as (p0 & Hp0 & ->). split; [done|].
    exists p0. done.
  - rewrite Hp. apply dom_fmap_L.
Qed.

(** C2 (as amended).  A start-game request yields
    [clamp (ballCount || 15, 5, 50)] ScoreBalls, where only an absent
    [ballCount] and the value 0 are replaced by 15; every other value,
    the negative ones included, is clamped as it is, so that a negative
    [ballCount] yields 5 balls.  The same number is broadcast in
    [gameStarted]. *)
Theorem onStartGame_ball_count random data s :
  consistent s →
  let n := Z.min (Z.max (or_Z (ballCount data) 15) 5) 50 in
  let s' := onStartGame random data s in
  count_label ScoreBall s' = Z.to_nat n ∧
  length (scoreBalls s') = Z.to_nat n ∧
  (5 ≤ n ≤ 50)%Z ∧
  log s' = IoEmit (gameStarted n) :: log s ∧
  (ballCount data = None ∨ ballCount data = Some 0%Z → n = 15%Z) ∧
  (∀ m, ballCount data = Some m → m ≠ 0%Z → n = Z.min (Z.max m 5) 50) ∧
  (∀ m, ballCount data = Some m → (m < 0)%Z → n = 5%Z).
Proof.
  intros C. cbn zeta.
  pose proof (onStartGame_consistent random data s C) as C'.
  destruct (startGame_shape random
              (Z.min (Z.max (or_Z (ballCount data) 15) 5) 50) s)
    as (_ & Hs & _ & _ & _ & _ & Hl & _).
  cbn zeta in *.
  assert (scoreBalls (onStartGame random data s)
          = seq (nextId s) (Z.to_nat (Z.min (Z.max (or_Z (ballCount data) 15) 5) 50)))
    as Hs' by (unfold onStartGame; state_simpl; done).
  split_and!.
  - by rewrite count_scoreBalls, Hs', length_seq.
  - by rewrite Hs', length_seq.
  - lia.
  - lia.
  - unfold onStartGame. state_simpl. by rewrite Hl.
  - intros [-> | ->]; done.
  - intros m -> Hm. unfold or_Z. by rewrite decide_False.
  - intros m -> Hm. unfold or_Z. rewrite decide_False by lia. lia.
Qed.

(** C2, as the specification words it, fails: a negative [ballCount] is
    not replaced by 15 but clamped to 5. *)
Lemma startGame_negative_counterexample :
  count_label ScoreBall
    (onStartGame half {| ballCount := Some (-3)%Z |} (initial half)) = 5 ∧
  Z.to_nat (spec_ball_count (Some (-3)%Z)) = 15.
Proof. by vm_compute. Qed.

(** C10.  The server starts with a game running: [startGame(15)] is
    called at load time, directly and not through the message handler, so
    that the first state has [gameActive] true, 15 ScoreBalls and one
    BlackBall at the table centre, with no session and nothing broadcast
    yet.  [startGame] itself does not clamp its argument. *)
Theorem initial_state random :
  initial random = startGame random 15 boot ∧
  gameActive boot = false ∧
  gameActive (initial random) = true ∧
  count_label ScoreBall (initial random) = 15 ∧
  length (scoreBalls (initial random)) = 15 ∧
  count_label BlackBall (initial random) = 1 ∧
  (∃ k b, blackBall (initial random) = Some k ∧ k ∈ world (initial random) ∧
          heap (initial random) !! k = Some b ∧ label b = BlackBall ∧
          at_center (position b) ∧ velocity b = zero) ∧
  players (initial random) = ∅ ∧
  log (initial random) = [] ∧
  (∀ n, length (scoreBalls (startGame random n boot)) = Z.to_nat n).
Proof.
  pose proof (consistent_initial random) as C.
  destruct boot_fields as (Hbw & Hbn & Hbp & Hbs & Hbb & Hbl & Hbd & Hbg).
  destruct (startGame_shape random 15 boot)
    as (Hw & Hs & Hb & Hn & Hp & Hg & Hl & Hd & Hnew & Hk & Hold).
  cbn zeta in *. fold (initial random) in *.
  split_and!.
  - reflexivity.
  - exact Hbg.
  - exact Hg.
  - rewrite count_scoreBalls, Hs, length_seq by exact C. reflexivity.
  - rewrite Hs, length_seq. reflexivity.
  - apply count_blackBall. exact C.
  - exists (nextId boot + Z.to_nat 15), blackBallBody.
    split_and!; [exact Hb| |exact Hk|reflexivity|apply center_point|reflexivity].
    rewrite Hw, !elem_of_app, list_elem_of_singleton. right; right. reflexivity.
  - rewrite Hp, Hbp. apply fmap_empty.
  - rewrite Hl. exact Hbl.
  - intros n. destruct (startGame_shape random n boot) as (_ & Hs' & _).
    cbn zeta in Hs'. rewrite Hs', length_seq. reflexivity.
Qed.

(** ** The sample states and the theorems at work on them *)

Lemma two_players_consistent : consistent two_players.
Proof.
  unfold two_players.
  exact (joinGame_consistent half "b" _
           (joinGame_consistent half "a" _ (consistent_initial half)
              ltac:(discriminate))
           ltac:(discriminate)).
Qed.

Lemma touched_score_consistent : consistent touched_score.
Proof.
  unfold touched_score.
  exact (frame_consistent _ _ (frame_handlePair half 26 10 two_players)
           two_players_consistent).
Qed.

Lemma scored_consistent : consistent scored.
Proof.
  unfold scored.
  exact (frame_consistent _ _ (frame_handlePair half 5 10 touched_score)
           touched_score_consistent).
Qed.

Lemma touched_black_consistent : consistent touched_black.
Proof.
  unfold touched_black.
  exact (frame_consistent _ _ (frame_handlePair half 26 25 scored)
           scored_consistent).
Qed.


(** Membership in a concrete world, by evaluation. *)
Ltac in_world := apply (bool_decide_unpack _); vm_compute; exact I.

(** C1 at work: the balls of "a" (26) and "b" (27) collide. *)
Lemma touch_attribution_witness :
  heap two_players !! 26 = Some (playerBallBody half 45 "a") ∧
  heap two_players !! 27 = Some (playerBallBody half 48 "b") ∧
  heap (handlePair half 26 27 two_players) !! 27
  = Some (set_lastTouchedBy (Some "a") (playerBallBody half 48 "b")).
Proof.
  assert (heap two_players !! 26 = Some (playerBallBody half 45 "a")) as Ha
    by (vm_compute; reflexivity).
  assert (heap two_players !! 27 = Some (playerBallBody half 48 "b")) as Hb
    by (vm_compute; reflexivity).
  split; [exact Ha|]. split; [exact Hb|].
  pose proof (touch_attribution half two_players 26 27 _ _ Ha Hb
                ltac:(discriminate)) as T.
  cbn zeta in T. destruct T as (_ & _ & T & _).
  exact (T eq_refl ltac:(discriminate) ltac:(discriminate)).
Defined.

(** C2 at work: a request for -3 balls at start-up yields 5. *)
Lemma onStartGame_ball_count_witness :
  consistent (initial half) ∧
  count_label ScoreBall
    (onStartGame half {| ballCount := Some (-3)%Z |} (initial half)) = 5.
Proof.
  split; [exact (consistent_initial half)|].
  pose proof (onStartGame_ball_count half {| ballCount := Some (-3)%Z |}
                (initial half) (consistent_initial half)) as T.
  cbn zeta in T. destruct T as (T & _). exact T.
Defined.


(** C4 at work: the ScoreBall 10, last touched by "a", falls into a hole. *)
Lemma scoreBall_hole_witness :
  unit_interval half ∧ consistent touched_score ∧ 10 ∈ world touched_score ∧
  score <$> players (handleHoleCollision half 10 touched_score) !! "a"
  = Some 1%Z.
Proof.
  assert (10 ∈ world touched_score) as Hin by in_world.
  assert (heap touched_score !! 10
          = Some (set_lastTouchedBy (Some "a") (scoreBallBody half 0)))
    as Hb by (vm_compute; reflexivity).
  assert (players touched_score !! "a" = Some (playerEntry half 45 "a" 26))
    as Hpa by (vm_compute; reflexivity).
  split; [exact unit_interval_half|]. split; [exact touched_score_consistent|].
  split; [exact Hin|].
  pose proof (scoreBall_hole half touched_score 10 _ unit_interval_half
                touched_score_consistent Hin Hb eq_refl) as T.
  cbn zeta in T. destruct T as (_ & T & _).
  exact (T "a" _ eq_refl Hpa).
Defined.

(** C5 at work: the BlackBall, last touched by "a" who has one point,
    falls into a hole. *)
Lemma blackBall_hole_witness :
  consistent touched_black ∧ 25 ∈ world touched_black ∧
  score <$> players touched_black !! "a" = Some 1%Z ∧
  score <$> players (handleHoleCollision half 25 touched_black) !! "a"
  = Some 0%Z.
Proof.
  assert (25 ∈ world touched_black) as Hin by in_world.
  assert (heap touched_black !! 25
          = Some (set_lastTouchedBy (Some "a") blackBallBody))
    as Hb by (vm_compute; reflexivity).
  assert (players touched_black !! "a"
          = Some (add_score 1 (playerEntry half 45 "a" 26)))
    as Hpa by (vm_compute; reflexivity).
  split; [exact touched_black_consistent|]. split; [exact Hin|].
  split; [rewrite Hpa; reflexivity|].
  pose proof (blackBall_hole half touched_black 25 _
                touched_black_consistent Hin Hb eq_refl) as T.
  cbn zeta in T. destruct T as (T & _).
  exact (proj2 (T "a" _ eq_refl Hpa)).
Defined.

(** C6 at work: "a" shoots at time 1000 with the force 10 along the angle
    1, and again at time 1500. *)
Lemma shoot_cooldown_witness :
  consistent two_players ∧
  players two_players !! "a" = Some (playerEntry half 45 "a" 26) ∧
  (∃ b, heap two_players !! 26 = Some b ∧
        log (shoot sample_cos sample_sin "a"
               {| force := Some 10%Q; angle := Some 1%Q |} 1000 two_players)
        = SocketEmit "a" (cooldownNotify 750)
          :: ApplyForce 26 (position b)
               (Vector_create (sample_cos 1 * (10 * (3 # 10)))
                              (sample_sin 1 * (10 * (3 # 10))))
          :: log two_players) ∧
  (sample_cos 1 * (10 * (3 # 10)) == 3 # 2)%Q ∧
  (sample_sin 1 * (10 * (3 # 10)) == 3)%Q ∧
  cooldown <$> players (shoot sample_cos sample_sin "a"
                          {| force := Some 10%Q; angle := Some 1%Q |} 1000
                          two_players) !! "a" = Some 1750%Z ∧
  forces_applied
    (shoot sample_cos sample_sin "a" {| force := Some 10%Q; angle := Some 1%Q |}
       1000 two_players) = 1 ∧
  shoot sample_cos sample_sin "a" {| force := Some 10%Q; angle := Some 1%Q |} 1500
    (shoot sample_cos sample_sin "a" {| force := Some 10%Q; angle := Some 1%Q |}
       1000 two_players)
  = shoot sample_cos sample_sin "a" {| force := Some 10%Q; angle := Some 1%Q |}
      1000 two_players.
Proof.
  assert (players two_players !! "a" = Some (playerEntry half 45 "a" 26))
    as Hpa by (vm_compute; reflexivity).
  split; [exact two_players_consistent|]. split; [exact Hpa|].
  pose proof (shoot_cooldown sample_cos sample_sin two_players "a" _
                {| force := Some 10%Q; angle := Some 1%Q |} 1000
                two_players_consistent Hpa) as T.
  cbn zeta in T. destruct T as (_ & T).
  destruct (T ltac:(vm_compute; discriminate))
    as (b & F & Hb & Hlog & _ & _ & _ & _ & _ & _ & _ & Hn & Hagain & Hpay & _
        & Hcd & _).
  pose proof (Hpay 10%Q 1%Q eq_refl eq_refl
                ltac:(vm_compute; discriminate) ltac:(vm_compute; discriminate))
    as HF.
  rewrite HF in Hlog.
  split; [exists b; split; [exact Hb | exact Hlog]|].
  split; [vm_compute; reflexivity|]. split; [vm_compute; reflexivity|].
  split; [exact Hcd|]. split; [exact Hn|].
  exact (proj1 (Hagain {| force := Some 10%Q; angle := Some 1%Q |} 1500%Z
                  ltac:(reflexivity))).
Defined.

(** C7 at work: "a" joins twice right after start-up. *)
Lemma joinGame_idempotent_witness :
  consistent (initial half) ∧ "a" ≠ "" ∧
  joinGame half "a" (joinGame half "a" (initial half))
  = joinGame half "a" (initial half) ∧
  length (filter (owned_by "a" (joinGame half "a" (joinGame half "a" (initial half))))
            (world (joinGame half "a" (joinGame half "a" (initial half))))) = 1.
Proof.
  split; [exact (consistent_initial half)|]. split; [discriminate|].
  pose proof (joinGame_idempotent half (initial half) "a"
                (consistent_initial half) ltac:(discriminate)) as T.
  cbn zeta in T. destruct T as (T1 & T2 & _).
  split; [exact T1 | exact T2].
Defined.

(** C8 at work: a game with 7 balls is started while "a", who has one
    point, and "b" play. *)
Lemma startGame_frame_witness :
  consistent scored ∧
  score <$> players scored !! "a" = Some 1%Z ∧
  score <$> players (startGame half 7 scored) !! "a" = Some 0%Z ∧
  count_label ScoreBall (startGame half 7 scored) = 7 ∧
  count_label BlackBall (startGame half 7 scored) = 1 ∧
  players (startGame half 7 scored)
  = set_score (fun _ => 0%Z) <$> players scored.
Proof.
  assert (players scored !! "a"
          = Some (add_score 1 (playerEntry half 45 "a" 26)))
    as Hpa by (vm_compute; reflexivity).
  split; [exact scored_consistent|].
  split; [rewrite Hpa; reflexivity|].
  pose proof (startGame_frame half 7 scored scored_consistent) as T.
  cbn zeta in T.
  destruct T as (_ & _ & _ & _ & T1 & _ & T2 & _ & T3 & _ & _ & _ & T4 & _).
  split; [exact (T4 "a" _ Hpa)|].
  split; [exact T1|]. split; [exact T2 | exact T3].
Defined.

(** C9 at work: a client that never joined shoots and disconnects, and
    "a" shoots without naming a force. *)
Lemma unknown_player_noop_witness :
  players two_players !! "ghost" = None ∧
  shoot const_one const_zero "ghost" {| force := Some 10%Q; angle := None |}
    1000 two_players = two_players ∧
  disconnect "ghost" two_players = two_players ∧
  ∃ b F,
    log (shoot const_one const_zero "a" {| force := None; angle := Some 1%Q |}
           1000 two_players)
    = SocketEmit "a" (cooldownNotify 750)
      :: ApplyForce 26 (position b) F :: log two_players ∧
    (vx F == 0)%Q ∧ (vy F == 0)%Q.
Proof.
  assert (players two_players !! "ghost" = None) as Hg
    by (vm_compute; reflexivity).
  assert (players two_players !! "a" = Some (playerEntry half 45 "a" 26))
    as Hpa by (vm_compute; reflexivity).
  split; [exact Hg|].
  destruct (unknown_player_noop const_one const_zero two_players "ghost")
    as (T & _).
  destruct (T Hg) as (T1 & T2).
  split; [exact (T1 {| force := Some 10%Q; angle := None |} 1000%Z)|].
  split; [exact T2|].
  destruct (unknown_player_noop const_one const_zero two_players "a")
    as (_ & _ & _ & T' & _).
  exact (T' _ (Some 1%Q) 1000%Z two_players_consistent Hpa
           ltac:(vm_compute; discriminate)).
Defined.

(** ** Steady steps: the collision listener *)

Lemma steady_refl s : steady s s.
Proof. by constructor. Qed.

Lemma steady_trans s1 s2 s3 : steady s1 s2 → steady s2 s3 → steady s1 s3.
Proof.
  intros F G. constructor.
  - rewrite (sd_world _ _ G). apply F.
  - rewrite (sd_scoreBalls _ _ G). apply F.
  - rewrite (sd_blackBall _ _ G). apply F.
  - rewrite (sd_gameActive _ _ G). apply F.
  - rewrite (sd_nextId _ _ G). apply F.
  - rewrite (sd_log _ _ G). apply F.
  - pose proof (sd_draws _ _ F). pose proof (sd_draws _ _ G). lia.
  - intros id. rewrite (sd_make _ _ G). apply F.
  - intros sid. rewrite (sd_session _ _ G). apply F.
Qed.

Lemma steady_heap_alter f id s :
  (∀ b, make (f b) = make b) → steady s (with_heap (alter f id) s).
Proof.
  intros Hf. constructor; state_simpl; try done.
  intros i. rewrite lookup_alter. case_decide; [subst|done].
  destruct (heap s !! i); simpl; [by rewrite Hf | done].
Qed.

Lemma steady_players_alter f sid s :
  (∀ p, session (f p) = session p) → steady s (with_players (alter f sid) s).
Proof.
  intros Hf. constructor; state_simpl; try done.
  intros i. rewrite lookup_alter. case_decide; [subst|done].
  destruct (players s !! i); simpl; [by rewrite Hf | done].
Qed.

Lemma steady_with_draws n s : draws s ≤ n → steady s (with_draws n s).
Proof. intros H. constructor; state_simpl; done. Qed.

Lemma steady_respawn p ball n s :
  steady s (with_heap (alter (respawned p) ball) (with_draws (draws s + n) s)).
Proof.
  eapply steady_trans; [|by apply steady_heap_alter].
  apply steady_with_draws. lia.
Qed.

Lemma steady_respawnBlackBall s : steady s (respawnBlackBall s).
Proof.
  destruct (blackBall s) as [bb|] eqn:Hbb.
  - rewrite (respawnBlackBall_spec bb) by done. by apply steady_heap_alter.
  - unfold respawnBlackBall. rewrite Hbb. apply steady_refl.
Qed.

Lemma steady_handleHoleCollision random ball s :
  steady s (handleHoleCollision random ball s).
Proof.
  unfold handleHoleCollision.
  repeat case_match; try apply steady_refl;
    rewrite ?respawnScoreBall_spec, ?respawnPlayer_spec;
    (eapply steady_trans;
     [| first [ apply steady_respawn | apply steady_respawnBlackBall ] ]);
    repeat first [ apply steady_refl
                 | eapply steady_trans; [|by apply steady_players_alter] ].
Qed.

Lemma steady_handlePair random bodyA bodyB s :
  steady s (handlePair random bodyA bodyB s).
Proof.
  unfold handlePair.
  destruct (heap s !! bodyA) as [a|]; [|apply steady_refl].
  destruct (heap s !! bodyB) as [b|]; [|apply steady_refl].
  repeat case_decide; try apply steady_handleHoleCollision;
    try apply steady_refl; by apply steady_heap_alter.
Qed.

Lemma steady_collisionStart random pairs s :
  steady s (collisionStart random pairs s).
Proof.
  unfold collisionStart. revert s.
  induction pairs as [|p pairs IH]; intros s; simpl; [apply steady_refl|].
  eapply steady_trans; [apply steady_handlePair | apply IH].
Qed.

(** X1.  Whatever pairs a physics step reports, the [collisionStart]
    listener only moves balls, attributes them and changes scores: the
    world, the list of ScoreBalls, the BlackBall reference, the log and
    the set of sessions are as before, every session keeps its body,
    cooldown, name and colour, every body keeps its label, shape, colour
    and owner, and the state invariant is kept.  Two batches of pairs
    handled one after the other act as the single batch of both. *)
Theorem collisionStart_steady random pairs s :
  let s' := collisionStart random pairs s in
  world s' = world s ∧ scoreBalls s' = scoreBalls s ∧
  blackBall s' = blackBall s ∧ gameActive s' = gameActive s ∧
  log s' = log s ∧ nextId s' = nextId s ∧
  dom (players s') = dom (players s) ∧
  (∀ sid, session <$> players s' !! sid = session <$> players s !! sid) ∧
  (∀ id, make <$> heap s' !! id = make <$> heap s !! id) ∧
  (consistent s → consistent s') ∧
  (∀ more, collisionStart random (pairs ++ more) s
           = collisionStart random more s').
Proof.
  cbn zeta. pose proof (steady_collisionStart random pairs s) as S.
  split_and!; try apply S.
  - apply set_eq. intros sid. rewrite !elem_of_dom.
    rewrite <- !(fmap_is_Some session). by rewrite (sd_session _ _ S).
  - apply frame_consistent, frame_collisionStart.
  - intros more. unfold collisionStart. apply fold_left_app.
Qed.

(** ** Contact pairs *)

Lemma handleHoleCollision_static random s id b :
  heap s !! id = Some b → label b = Wall ∨ label b = Hole →
  handleHoleCollision random id s = s.
Proof.
  intros Hb Hl. unfold handleHoleCollision. rewrite Hb.
  by destruct Hl as [-> | ->].
Qed.

(** X2.  The order in which a physics step names the two bodies of a pair
    does not matter, except for a pair of two PlayerBalls. *)
Theorem handlePair_symmetric random s bodyA bodyB :
  ¬ (is_a PlayerBall s bodyA ∧ is_a PlayerBall s bodyB) →
  handlePair random bodyA bodyB s = handlePair random bodyB bodyA s.
Proof.
  intros Hnot. unfold handlePair.
  destruct (heap s !! bodyA) as [a|] eqn:Ha, (heap s !! bodyB) as [b|] eqn:Hb;
    try done.
  assert (¬ (label a = PlayerBall ∧ label b = PlayerBall)) as Hlab.
  { intros [Hla Hlb]. apply Hnot. split; apply is_a_lookup; eauto. }
  destruct (decide (label a = Hole)) as [Hah|Hah],
           (decide (label b = Hole)) as [Hbh|Hbh]; try done.
  - rewrite (handleHoleCollision_static random s bodyA a),
            (handleHoleCollision_static random s bodyB b); auto.
  - destruct (decide (label a = PlayerBall)) as [Hap|Hap],
             (decide (label b = PlayerBall)) as [Hbp|Hbp]; try done.
    tauto.
Qed.

Lemma touch_ball random s p x a b :
  heap s !! p = Some a → heap s !! x = Some b →
  label a = PlayerBall → label b = ScoreBall ∨ label b = BlackBall →
  handlePair random p x s
  = with_heap (alter (set_lastTouchedBy (playerId a)) x) s ∧
  handlePair random x p s
  = with_heap (alter (set_lastTouchedBy (playerId a)) x) s.
Proof.
  intros Ha Hb Hla Hlb. unfold handlePair. rewrite Ha, Hb.
  assert (label b ≠ Hole ∧ label b ≠ Wall ∧ label b ≠ PlayerBall) as (? & ? & ?)
    by (destruct Hlb as [-> | ->]; done).
  split; repeat case_decide; first [done | congruence | tauto].
Qed.

(** X3.  The most recent toucher wins: when two PlayerBalls touch the same
    ScoreBall or BlackBall one after the other, in whatever order each
    pair names its bodies, the ball ends up attributed to the second
    player, and nothing else in the state differs from what the second
    touch alone gives. *)
Theorem last_toucher_wins random s p1 p2 x a1 a2 b :
  heap s !! p1 = Some a1 → heap s !! p2 = Some a2 → heap s !! x = Some b →
  label a1 = PlayerBall → label a2 = PlayerBall →
  label b = ScoreBall ∨ label b = BlackBall →
  let s' := handlePair random p2 x (handlePair random p1 x s) in
  heap s' !! x = Some (set_lastTouchedBy (playerId a2) b) ∧
  s' = handlePair random p2 x s ∧
  handlePair random x p2 (handlePair random p1 x s) = s' ∧
  handlePair random p2 x (handlePair random x p1 s) = s' ∧
  handlePair random x p2 (handlePair random x p1 s) = s'.
Proof.
  intros H1 H2 Hx Hl1 Hl2 Hlb. cbn zeta.
  assert (p2 ≠ x) as Hne.
  { intros ->. rewrite Hx in H2. injection H2 as ->.
    destruct Hlb as [Hlb|Hlb]; congruence. }
  destruct (touch_ball random s p1 x a1 b H1 Hx Hl1 Hlb) as [E1 E1'].
  destruct (touch_ball random s p2 x a2 b H2 Hx Hl2 Hlb) as [E2 _].
  set (s1 := with_heap (alter (set_lastTouchedBy (playerId a1)) x) s) in *.
  assert (heap s1 !! p2 = Some a2) as H2'.
  { subst s1. state_simpl. by rewrite lookup_alter_ne. }
  assert (heap s1 !! x = Some (set_lastTouchedBy (playerId a1) b)) as Hx'.
  { subst s1. state_simpl. by rewrite lookup_alter_eq, Hx. }
  destruct (touch_ball random s1 p2 x a2 _ H2' Hx' Hl2 Hlb) as [E3 E3'].
  assert (with_heap (alter (set_lastTouchedBy (playerId a2)) x) s1
          = with_heap (alter (set_lastTouchedBy (playerId a2)) x) s) as Hsame.
  { subst s1. unfold with_heap. state_simpl. f_equal.
    apply map_eq. intros id. destruct (decide (id = x)) as [->|Hid].
    - rewrite !lookup_alter_eq. by destruct (heap s !! x).
    - by rewrite !lookup_alter_ne. }
  rewrite E1', E1, E3, E3', E2, Hsame. split_and!; try done.
  state_simpl. by rewrite lookup_alter_eq, Hx.
Qed.

(** ** A ball that has met a hole *)

Lemma hole_respawns random s ball b :
  consistent s → ball ∈ world s → heap s !! ball = Some b →
  label b ≠ Wall → label b ≠ Hole →
  ∃ p, heap (handleHoleCollision random ball s)
       = alter (respawned p) ball (heap s).
Proof.
  intros C Hin Hb Hw Hh. unfold handleHoleCollision. rewrite Hb.
  destruct (label b) eqn:Hl; try done.
  - rewrite respawnScoreBall_spec. eexists.
    repeat case_match; state_simpl; reflexivity.
  - rewrite (respawnBlackBall_spec ball).
    + eexists. repeat case_match; state_simpl; reflexivity.
    + repeat case_match; state_simpl; by apply (blackBall_global s ball b).
  - destruct (playerBall_owner s ball b C Hin Hb Hl) as (v & pv & Hv & Hpv & _).
    rewrite Hv. cbn [prop_key]. rewrite Hpv, respawnPlayer_spec.
    eexists. repeat case_match; state_simpl; reflexivity.
Qed.

Lemma hole_untouched random s ball b :
  consistent s → ball ∈ world s → heap s !! ball = Some b →
  lastTouchedBy b = None →
  ∀ sid, players (handleHoleCollision random ball s) !! sid
         = add_score (if decide (kind b = (PlayerBall, Some sid))
                      then (-5)%Z else 0%Z) <$> players s !! sid.
Proof.
  intros C Hin Hb Hn sid. unfold handleHoleCollision. rewrite Hb, Hn.
  cbn [truthy]. unfold kind.
  destruct (label b) eqn:Hl.
  - rewrite decide_False by congruence. by rewrite fmap_add_score_0.
  - rewrite decide_False by congruence. by rewrite fmap_add_score_0.
  - rewrite respawnScoreBall_spec. state_simpl.
    rewrite decide_False by congruence. by rewrite fmap_add_score_0.
  - destruct (blackBall s) as [bb|] eqn:Hbb.
    + rewrite (respawnBlackBall_spec bb) by done. state_simpl.
      rewrite decide_False by congruence. by rewrite fmap_add_score_0.
    + unfold respawnBlackBall. rewrite Hbb.
      rewrite decide_False by congruence. by rewrite fmap_add_score_0.
  - destruct (playerBall_owner s ball b C Hin Hb Hl) as (v & pv & Hv & Hpv & _).
    rewrite Hv. cbn [prop_key]. rewrite Hpv, respawnPlayer_spec. state_simpl.
    rewrite lookup_alter. destruct (decide (v = sid)) as [->|Hne].
    + by rewrite decide_True.
    + rewrite decide_False by congruence. by rewrite fmap_add_score_0.
Qed.

(** X4.  A credit is used up by the hole: when a ball meets a hole a second
    time with no touch in between, the second contact credits nobody.
    Scores stay as the first contact left them, except that the owner of a
    PlayerBall loses 5 again. *)
Theorem hole_twice random s ball b :
  consistent s → ball ∈ world s → heap s !! ball = Some b →
  let s1 := handleHoleCollision random ball s in
  let s2 := handleHoleCollision random ball s1 in
  ∀ sid, players s2 !! sid
         = add_score (if decide (kind b = (PlayerBall, Some sid))
                      then (-5)%Z else 0%Z) <$> players s1 !! sid.
Proof.
  intros C Hin Hb. cbn zeta. intros sid.
  destruct (decide (label b = Wall ∨ label b = Hole)) as [Hst|Hst].
  - rewrite !(handleHoleCollision_static random s ball b) by done.
    rewrite decide_False; [by rewrite fmap_add_score_0|].
    unfold kind. intros [= Hl _]. destruct Hst; congruence.
  - destruct (hole_respawns random s ball b C Hin Hb) as [p Hp]; [tauto..|].
    pose proof (frame_handleHoleCollision random ball s) as F.
    pose proof (frame_consistent _ _ F C) as C1.
    assert (heap (handleHoleCollision random ball s) !! ball
            = Some (respawned p b)) as Hb1.
    { by rewrite Hp, lookup_alter_eq, Hb. }
    rewrite (hole_untouched random _ ball (respawned p b) C1); try done.
    by rewrite (f_world _ _ F).
Qed.

(** ** Sessions *)

Lemma remove_first_fresh id w : id ∉ w → remove_first id (w ++ [id]) = w.
Proof.
  induction w as [|i w IH]; simpl; intros Hid.
  - by rewrite decide_True.
  - apply not_elem_of_cons in Hid as [Hne Hid].
    rewrite decide_False by done. by rewrite IH.
Qed.

Lemma remove_first_length id w :
  id ∈ w → length (remove_first id w) = pred (length w).
Proof.
  induction w as [|i w IH]; simpl; intros Hid; [by apply elem_of_nil in Hid|].
  case_decide; [done|]. apply elem_of_cons in Hid as [?|Hid]; [congruence|].
  simpl. rewrite IH by done. destruct w; [by apply elem_of_nil in Hid | done].
Qed.

(** X5.  [disconnect] of a player with a session removes that session and
    takes the player's ball, and no other body, out of the world; the
    other sessions, all body objects (attributions that name the leaving
    player included) and the log are untouched, the invariant is kept, and
    a second [disconnect] does nothing. *)
Theorem disconnect_session sid s p :
  consistent s → players s !! sid = Some p →
  let s' := disconnect sid s in
  players s' = delete sid (players s) ∧
  size (players s') = pred (size (players s)) ∧
  (body p ∉ world s') ∧
  (∀ id, id ≠ body p → (id ∈ world s' ↔ id ∈ world s)) ∧
  length (world s') = pred (length (world s)) ∧
  (∀ id, id ∈ world s' → ¬ owned_by sid s' id) ∧
  heap s' = heap s ∧ log s' = log s ∧
  scoreBalls s' = scoreBalls s ∧ blackBall s' = blackBall s ∧
  consistent s' ∧
  disconnect sid s' = s'.
Proof.
  intros C Hp. cbn zeta.
  pose proof (disconnect_consistent sid s C) as C'.
  destruct (c_player_body _ C sid p Hp) as [Hin Hown].
  unfold disconnect in *. rewrite Hp in *. state_simpl.
  assert (∀ id, id ∈ remove_first (body p) (world s) ↔ id ∈ world s ∧ id ≠ body p)
    as Hworld by (intros id; apply remove_first_elem_of, C).
  split_and!; try done.
  - by rewrite map_size_delete, Hp.
  - rewrite Hworld. tauto.
  - intros id Hne. rewrite Hworld. tauto.
  - by apply remove_first_length.
  - intros id [Hi Hne]%Hworld Ho. apply Hne.
    destruct (c_body_player _ C id Hi) as (sid' & q & Ho' & Hq & Hbody).
    { by apply (owned_by_is_a sid). }
    assert (sid' = sid) as -> by (by apply (owned_by_functional _ _ s id)).
    congruence.
  - by rewrite lookup_delete_eq.
Qed.

(** X6.  Joining and leaving again is a round trip for the game: the
    world, the sessions and every object that existed before are as they
    were.  What the visit leaves behind is the ball object (outside the
    world), three random draws and the [joined] reply. *)
Theorem join_disconnect_round_trip random sid s :
  consistent s → players s !! sid = None →
  let s' := disconnect sid (joinGame random sid s) in
  world s' = world s ∧ players s' = players s ∧
  scoreBalls s' = scoreBalls s ∧ blackBall s' = blackBall s ∧
  gameActive s' = gameActive s ∧
  (∀ id, id < nextId s → heap s' !! id = heap s !! id) ∧
  nextId s' = S (nextId s) ∧ draws s' = draws s + 3 ∧
  log s' = SocketEmit sid (joined sid (Hsl (Qfloor (random (draws s) * 360))))
           :: log s.
Proof.
  intros C Hfree. cbn zeta. rewrite joinGame_fresh by done.
  destruct (createPlayer_shape random sid s)
    as (Hh & Hw & Hp & Hs & Hb & Hg & Hl & Hn & Hd & _).
  cbn zeta in *. unfold disconnect. state_simpl.
  rewrite Hp, lookup_insert_eq. state_simpl.
  rewrite Hw, Hp, Hs, Hb, Hg, Hl, Hn, Hd, Hh. cbn [body playerEntry].
  split_and!; try done.
  - apply remove_first_fresh. intros Hi. apply (c_world _ C) in Hi. lia.
  - by apply delete_insert_id.
  - intros id Hid. apply lookup_insert_ne. lia.
Qed.

(** X7.  [autoJoin] does to the game what [joinGame] does: the same ball
    and the same session for a new id, nothing for a known one.  Only the
    reply differs: [autoJoin] always sends [init] with the id and never
    [joined], so a client that came in by [autoJoin] is not told its
    colour, also not by a later [joinGame], which is then a no-op. *)
Theorem autoJoin_as_joinGame random sid s :
  let s1 := autoJoin random sid s in
  let s2 := joinGame random sid s in
  heap s1 = heap s2 ∧ world s1 = world s2 ∧ players s1 = players s2 ∧
  scoreBalls s1 = scoreBalls s2 ∧ blackBall s1 = blackBall s2 ∧
  gameActive s1 = gameActive s2 ∧ nextId s1 = nextId s2 ∧
  draws s1 = draws s2 ∧
  log s1 = SocketEmit sid (init sid) :: log s ∧
  (players s !! sid = None →
     log s2 = SocketEmit sid (joined sid (Hsl (Qfloor (random (draws s) * 360))))
              :: log s) ∧
  (is_Some (players s !! sid) → log s2 = log s) ∧
  joinGame random sid s1 = s1 ∧
  autoJoin random sid s2 = emit (SocketEmit sid (init sid)) s2.
Proof.
  cbn zeta.
  assert (∀ t, is_Some (players t !! sid) →
               autoJoin random sid t = emit (SocketEmit sid (init sid)) t)
    as Hknown.
  { intros t [q Hq]. unfold autoJoin. state_simpl. by rewrite Hq. }
  assert (is_Some (players (joinGame random sid s) !! sid)) as Hj.
  { destruct (players s !! sid) as [p|] eqn:Hp.
    - rewrite joinGame_known by eauto. eauto.
    - rewrite joinGame_fresh by done. state_simpl.
      destruct (createPlayer_shape random sid s) as (_ & _ & -> & _).
      rewrite lookup_insert_eq. eauto. }
  assert (is_Some (players (autoJoin random sid s) !! sid)) as Ha.
  { destruct (players s !! sid) as [p|] eqn:Hp.
    - rewrite Hknown by eauto. state_simpl. eauto.
    - unfold autoJoin. state_simpl. rewrite Hp.
      destruct (createPlayer_shape random sid (emit (SocketEmit sid (init sid)) s))
        as (_ & _ & -> & _).
      rewrite lookup_insert_eq. eauto. }
  pose proof (joinGame_known random sid _ Ha) as Hlast1.
  pose proof (Hknown _ Hj) as Hlast2.
  split_and!; [..|exact Hlast1|exact Hlast2]; clear Hlast1 Hlast2 Hj Ha.
  all: destruct (players s !! sid) as [p|] eqn:Hp;
    [ rewrite ?(Hknown s), ?(joinGame_known random sid s) by (rewrite Hp; eauto);
      first [done | by intros [??]]
    | rewrite ?joinGame_fresh by done;
      unfold autoJoin; state_simpl; rewrite ?Hp;
      destruct (createPlayer_shape random sid s)
        as (Hh & Hw & Hq & Hs & Hb & Hg & Hl & Hn & Hd & _);
      destruct (createPlayer_shape random sid (emit (SocketEmit sid (init sid)) s))
        as (Hh' & Hw' & Hq' & Hs' & Hb' & Hg' & Hl' & Hn' & Hd' & _);
      cbn zeta in *; state_simpl;
      rewrite ?Hh, ?Hw, ?Hq, ?Hs, ?Hb, ?Hg, ?Hl, ?Hn, ?Hd, ?Hh', ?Hw', ?Hq',
        ?Hs', ?Hb', ?Hg', ?Hl', ?Hn', ?Hd';
      first [done | by intros [??]] ].
Qed.

(** ** What every state of the running server satisfies *)

Lemma table_same_refl s : table_same s s.
Proof. by intros id b _. Qed.

Lemma table_same_trans s1 s2 s3 :
  table_same s1 s2 → table_same s2 s3 → table_same s1 s3.
Proof. intros F G id b Hl. rewrite (F id b Hl). by apply G. Qed.

Lemma table_same_fields s s' :
  world s' = world s → heap s' = heap s → table_same s s'.
Proof. intros Hw Hh id b _. by rewrite Hw, Hh. Qed.

Lemma table_same_alter f x s s' :
  world s' = world s → heap s' = alter f x (heap s) →
  (∀ b, label (f b) = label b) →
  (∀ b, heap s !! x = Some b → label b = Wall ∨ label b = Hole → f b = b) →
  table_same s s'.
Proof.
  intros Hw Hh Hlab Hfix id b Hl. rewrite Hw, Hh.
  destruct (decide (id = x)) as [->|Hne].
  - rewrite lookup_alter_eq. split; intros [Hi Hb]; (split; [done|]).
    + rewrite Hb. simpl. f_equal. by apply Hfix.
    + destruct (heap s !! x) as [b0|] eqn:Hb0; [|done].
      simpl in Hb. injection Hb as <-. f_equal. symmetry. apply Hfix; [done|].
      by rewrite <- Hlab.
  - by rewrite lookup_alter_ne.
Qed.

Lemma owners_ok_make s s' :
  (∀ id, make <$> heap s' !! id = make <$> heap s !! id) →
  owners_ok s → owners_ok s'.
Proof.
  intros Hm Ho id b' Hb'. specialize (Hm id). rewrite Hb' in Hm.
  destruct (heap s !! id) as [b|] eqn:Hb; [|done].
  simpl in Hm. unfold make in Hm. injection Hm as Hl _ _ _ _ Hp.
  rewrite Hl, Hp. by apply (Ho id).
Qed.

Lemma consistent_blackBall_is s bb :
  consistent s → blackBall s = Some bb →
  ∃ b, heap s !! bb = Some b ∧ label b = BlackBall.
Proof.
  intros C Hbb. destruct (c_blackBall _ C) as (k & Hk & Hu).
  assert (k = bb) as -> by congruence.
  destruct (proj1 (Hu bb) eq_refl) as [_ Hl]. by apply is_a_lookup.
Qed.

Lemma table_same_handleHoleCollision random ball s :
  consistent s → table_same s (handleHoleCollision random ball s).
Proof.
  intros C. unfold handleHoleCollision.
  destruct (heap s !! ball) as [b|] eqn:Hb; [|apply table_same_refl].
  destruct (label b) eqn:Hl; try apply table_same_refl.
  - rewrite respawnScoreBall_spec.
    apply (table_same_alter (respawned (inset_draw random (draws s))) ball);
      [by repeat case_match..|done|].
    intros b0 Hb0 Hst. destruct Hst; congruence.
  - destruct (consistent_blackBall s C) as [bb Hbb].
    destruct (consistent_blackBall_is s bb C Hbb) as (b1 & Hb1 & Hl1).
    rewrite (respawnBlackBall_spec bb) by (by repeat case_match).
    eapply (table_same_alter _ bb); [by repeat case_match..|done|].
    intros b0 Hb0 Hst. destruct Hst; congruence.
  - destruct (players s !! prop_key (playerId b)); [|apply table_same_refl].
    rewrite respawnPlayer_spec.
    apply (table_same_alter (respawned (inset_draw random (draws s))) ball);
      [by repeat case_match..|done|].
    intros b0 Hb0 Hst. destruct Hst; congruence.
Qed.

Lemma table_same_handlePair random bodyA bodyB s :
  consistent s → table_same s (handlePair random bodyA bodyB s).
Proof.
  intros C. unfold handlePair.
  destruct (heap s !! bodyA) as [a|] eqn:Ha; [|apply table_same_refl].
  destruct (heap s !! bodyB) as [b|] eqn:Hb; [|apply table_same_refl].
  repeat case_decide; try apply table_same_handleHoleCollision;
    try apply table_same_refl; try done.
  - eapply (table_same_alter _ bodyB); [done..|]. intros b0 Hb0 Hst.
    rewrite Hb in Hb0. injection Hb0 as <-. tauto.
  - eapply (table_same_alter _ bodyA); [done..|]. intros b0 Hb0 Hst.
    rewrite Ha in Hb0. injection Hb0 as <-. tauto.
Qed.

Lemma table_same_collisionStart random pairs s :
  consistent s → table_same s (collisionStart random pairs s).
Proof.
  unfold collisionStart. revert s.
  induction pairs as [|p pairs IH]; intros s C; simpl; [apply table_same_refl|].
  eapply table_same_trans; [by apply table_same_handlePair|].
  apply IH. exact (frame_consistent _ _ (frame_handlePair random _ _ s) C).
Qed.

Lemma table_same_startGame random n s :
  startable s → table_same s (startGame random n s).
Proof.
  intros St id b Hl.
  pose proof (startGame_heap_cases random n s St id) as Hheap.
  pose proof (startGame_world random n s St id) as Hworld.
  cbn zeta in *. rewrite Hworld. split.
  - intros [Hi Hb]. pose proof (st_world _ St _ Hi) as Hlt.
    destruct Hheap as [[_ Hsame]|[(? & _)|[[? _]|[? _]]]]; try lia.
    rewrite Hsame. split; [|done]. left. split; [done|].
    split; intros (b' & Hb' & Hl')%is_a_lookup; destruct Hl; congruence.
  - intros [[(Hi & _)|Hnew] Hb].
    + pose proof (st_world _ St _ Hi) as Hlt.
      destruct Hheap as [[_ Hsame]|[(? & _)|[[? _]|[? _]]]]; try lia.
      by rewrite <- Hsame.
    + destruct Hheap as [[? _]|[(_ & _ & j & Hj)|[[_ Hj]|[? _]]]]; try lia;
        rewrite Hj in Hb; injection Hb as <-; destruct Hl; done.
Qed.

Lemma owners_ok_startGame random n s :
  startable s → owners_ok s → owners_ok (startGame random n s).
Proof.
  intros St Ho id b Hb.
  destruct (startGame_heap_cases random n s St id)
    as [[_ Hsame]|[(_ & _ & j & Hj)|[[_ Hj]|[_ Hj]]]]; cbn zeta in *.
  - rewrite Hsame in Hb. by apply (Ho id).
  - rewrite Hj in Hb. injection Hb as <-. by intros [? ?].
  - rewrite Hj in Hb. injection Hb as <-. by intros [? ?].
  - congruence.
Qed.

Lemma boot_static id b : heap boot !! id = Some b → isStatic b = true.
Proof.
  intros Hb. assert (id < 10) as Hlt.
  { assert (id ∈ dom (heap boot)) as Hd by (apply elem_of_dom; eauto).
    rewrite boot_dom, elem_of_list_to_set, elem_of_seq in Hd. lia. }
  do 10 (destruct id as [|id];
         [vm_compute in Hb; injection Hb as <-; reflexivity|]).
  lia.
Qed.

Lemma owners_ok_boot : owners_ok boot.
Proof.
  intros id b Hb [t Ht]. destruct (boot_bodies id b Hb) as (_ & _ & Hp).
  congruence.
Qed.

Lemma settled_initial random : settled (initial random).
Proof.
  destruct (startGame_shape random 15 boot)
    as (_ & Hs & _ & _ & _ & Hg & _).
  cbn zeta in *. fold (initial random) in *.
  constructor.
  - exact Hg.
  - rewrite Hs, length_seq. split; [apply (Nat.leb_le 5 15) | apply (Nat.leb_le 15 50)];
      reflexivity.
  - exact (table_same_startGame random 15 boot startable_boot).
  - exact (owners_ok_startGame random 15 boot startable_boot owners_ok_boot).
Qed.

Lemma emit_fields e t :
  heap (emit e t) = heap t ∧ world (emit e t) = world t ∧
  scoreBalls (emit e t) = scoreBalls t ∧ gameActive (emit e t) = gameActive t.
Proof. done. Qed.

Lemma onStartGame_fields random data s :
  let n := Z.min (Z.max (or_Z (ballCount data) 15) 5) 50 in
  gameActive (onStartGame random data s) = true ∧
  length (scoreBalls (onStartGame random data s)) = Z.to_nat n ∧
  world (onStartGame random data s) = world (startGame random n s) ∧
  heap (onStartGame random data s) = heap (startGame random n s).
Proof.
  cbn zeta. unfold onStartGame.
  generalize (Z.min (Z.max (or_Z (ballCount data) 15) 5) 50). intros n.
  destruct (emit_fields (IoEmit (gameStarted n)) (startGame random n s))
    as (Hh & Hw & Hs & Hg).
  rewrite Hh, Hw, Hs, Hg.
  pose proof (startGame_shape random n s) as H. cbn zeta in H.
  destruct H as (_ & Hs' & _ & _ & _ & Hg' & _).
  rewrite Hs', length_seq. done.
Qed.

Lemma settled_onStartGame random data s :
  consistent s → settled s → settled (onStartGame random data s).
Proof.
  intros C S. pose proof (consistent_startable s C) as St.
  destruct (onStartGame_fields random data s) as (Hg & Hs & Hw & Hh).
  constructor.
  - exact Hg.
  - rewrite Hs. lia.
  - apply (table_same_trans boot s); [apply S|].
    apply (table_same_trans s (startGame random
             (Z.min (Z.max (or_Z (ballCount data) 15) 5) 50) s)).
    + by apply table_same_startGame.
    + by apply table_same_fields.
  - apply (owners_ok_make (startGame random
             (Z.min (Z.max (or_Z (ballCount data) 15) 5) 50) s)).
    + intros id. by rewrite Hh.
    + apply owners_ok_startGame; [done | apply S].
Qed.

Lemma settled_createPlayer random sid s :
  consistent s → settled s → settled (snd (createPlayer random sid s)).
Proof.
  intros C [Ha Hc Ht Ho].
  destruct (createPlayer_shape random sid s)
    as (Hh & Hw & Hp & Hs & Hb & Hg & Hl & Hn & Hd & _).
  cbn zeta in *. constructor.
  - congruence.
  - by rewrite Hs.
  - eapply table_same_trans; [exact Ht|].
    intros id b Hst. rewrite Hw, Hh, elem_of_app, list_elem_of_singleton. split.
    + intros [Hi Hbd]. pose proof (c_world _ C _ Hi).
      rewrite lookup_insert_ne by lia. tauto.
    + intros [[Hi| ->] Hbd].
      * pose proof (c_world _ C _ Hi). rewrite lookup_insert_ne in Hbd by lia.
        done.
      * rewrite lookup_insert_eq in Hbd. injection Hbd as <-.
        destruct Hst; done.
  - intros id b. rewrite Hh, lookup_insert. case_decide.
    + by intros [= <-].
    + apply Ho.
Qed.

Lemma settled_emit e s : settled s → settled (emit e s).
Proof.
  intros [Ha Hc Ht Ho]. constructor; try done.
Qed.

Lemma settled_joinGame random sid s :
  consistent s → settled s → settled (joinGame random sid s).
Proof.
  intros C S. unfold joinGame. destruct (players s !! sid); [done|].
  destruct (createPlayer random sid s) as [c s1] eqn:E.
  apply settled_emit. change s1 with (snd (c, s1)). rewrite <- E.
  by apply settled_createPlayer.
Qed.

Lemma settled_autoJoin random sid s :
  consistent s → settled s → settled (autoJoin random sid s).
Proof.
  intros C S. unfold autoJoin.
  destruct (players (emit (SocketEmit sid (init sid)) s) !! sid);
    [by apply settled_emit|].
  apply settled_createPlayer; [|by apply settled_emit].
  exact (frame_consistent _ _ (frame_emit _ s) C).
Qed.

Lemma settled_disconnect sid s :
  consistent s → settled s → settled (disconnect sid s).
Proof.
  intros C [Ha Hc Ht Ho]. unfold disconnect.
  destruct (players s !! sid) as [p|] eqn:Hp; [|done].
  constructor; state_simpl; try done.
  eapply table_same_trans; [exact Ht|].
  intros id b Hst. state_simpl.
  rewrite remove_first_elem_of by apply C.
  split; [|tauto]. intros [Hi Hb]. split_and!; try done.
  intros ->. destruct (consistent_player_heap s sid p C Hp) as (b' & Hb' & Hl' & _).
  destruct Hst; congruence.
Qed.

Lemma settled_shoot cos sin sid data now s :
  settled s → settled (shoot cos sin sid data now s).
Proof.
  intros S. unfold shoot. repeat case_match; try done.
  destruct S as [Ha Hc Ht Ho]. constructor; try done.
Qed.

Lemma integrate_lookup motion s id :
  NoDup (world s) →
  heap (integrate motion s) !! id
  = if decide (id ∈ world s) then move (motion id) <$> heap s !! id
    else heap s !! id.
Proof.
  unfold integrate. state_simpl. generalize (heap s). intros h.
  induction (world s) as [|i w IH]; intros Hnd; cbn [foldr].
  - rewrite decide_False; [done|]. by intros ?%elem_of_nil.
  - apply NoDup_cons in Hnd as [Hi Hnd].
    destruct (decide (i = id)) as [->|Hne].
    + rewrite lookup_alter_eq, IH by done.
      rewrite (decide_True (P := id ∈ id :: w)) by (by left).
      by rewrite decide_False.
    + rewrite lookup_alter_ne, IH by done.
      destruct (decide (id ∈ w)) as [Hw|Hw].
      * by rewrite (decide_True (P := id ∈ i :: w)) by (by right).
      * rewrite (decide_False (P := id ∈ i :: w)); [done|].
        intros [?|?]%elem_of_cons; congruence.
Qed.

Lemma settled_integrate motion s :
  consistent s → settled s → settled (integrate motion s).
Proof.
  intros C [Ha Hc Ht Ho]. constructor; try done.
  - eapply table_same_trans; [exact Ht|].
    intros id b Hst. change (world (integrate motion s)) with (world s).
    rewrite integrate_lookup by apply C.
    split.
    + intros [Hi Hb]. rewrite decide_True, Hb by done. split; [done|].
      simpl. unfold move.
      rewrite (boot_static id b); [done|]. by apply (Ht id b Hst).
    + intros [Hi Hb]. rewrite decide_True in Hb by done. split; [done|].
      destruct (heap s !! id) as [b0|] eqn:Hb0; [|done].
      simpl in Hb. injection Hb as <-. f_equal.
      assert (label b0 = Wall ∨ label b0 = Hole) as Hst0.
      { unfold move in Hst. by destruct (isStatic b0). }
      unfold move. rewrite (boot_static id b0); [done|]. by apply (Ht id b0 Hst0).
  - intros id b. rewrite integrate_lookup by apply C.
    case_decide; [|apply Ho].
    destruct (heap s !! id) as [b0|] eqn:Hb0; [|done].
    simpl. intros [= <-]. unfold move.
    destruct (isStatic b0); exact (Ho id b0 Hb0).
Qed.

Lemma settled_collisionStart random pairs s :
  consistent s → settled s → settled (collisionStart random pairs s).
Proof.
  intros C [Ha Hc Ht Ho].
  pose proof (steady_collisionStart random pairs s) as S.
  constructor.
  - by rewrite (sd_gameActive _ _ S).
  - by rewrite (sd_scoreBalls _ _ S).
  - eapply table_same_trans; [exact Ht|]. by apply table_same_collisionStart.
  - apply (owners_ok_make s); [apply S | done].
Qed.

Lemma reachable_settled random cos sin s :
  reachable random cos sin s → settled s.
Proof.
  induction 1 as [|e s R IH V].
  - exact (settled_initial random).
  - pose proof (reachable_consistent random cos sin s R) as C.
    destruct e; cbn [handle].
    + by apply settled_onStartGame.
    + by apply settled_joinGame.
    + by apply settled_autoJoin.
    + by apply settled_shoot.
    + by apply settled_disconnect.
    + by apply settled_integrate.
    + by apply settled_collisionStart.
Qed.

Lemma players_bodies_inj s sid1 sid2 p1 p2 :
  consistent s → players s !! sid1 = Some p1 → players s !! sid2 = Some p2 →
  body p1 = body p2 → sid1 = sid2.
Proof.
  intros C H1 H2 Hb.
  destruct (c_player_body _ C sid1 p1 H1) as [_ Ho1].
  destruct (c_player_body _ C sid2 p2 H2) as [_ Ho2].
  rewrite Hb in Ho1. by apply (owned_by_functional _ _ s (body p2)).
Qed.

Lemma count_playerBalls s :
  consistent s → count_label PlayerBall s = size (players s).
Proof.
  intros C. unfold count_label.
  rewrite <- (length_map_to_list (players s)).
  rewrite <- (length_fmap (fun kp : string * Player => body kp.2)).
  apply Permutation_length, NoDup_Permutation.
  - apply NoDup_filter, C.
  - apply NoDup_fmap_2_strong; [|apply NoDup_map_to_list].
    intros [k1 q1] [k2 q2] Hi1%elem_of_map_to_list Hi2%elem_of_map_to_list Hb.
    simpl in Hb. assert (k1 = k2) as -> by (by apply (players_bodies_inj s _ _ q1 q2)).
    congruence.
  - intros id. rewrite list_elem_of_filter, list_elem_of_fmap. split.
    + intros [Hl Hi].
      destruct (c_body_player _ C id Hi Hl) as (sid & p & _ & Hp & Hb).
      exists (sid, p). split; [done|]. by apply elem_of_map_to_list.
    + intros ([sid p] & -> & Hp%elem_of_map_to_list). simpl.
      destruct (c_player_body _ C sid p Hp) as [Hi Ho].
      split; [by apply (owned_by_is_a sid) | done].
Qed.

(** X8.  Sessions and PlayerBalls are in one-to-one correspondence: in a
    consistent state the world holds as many PlayerBalls as there are
    sessions, each session's ball is a PlayerBall of the world carrying
    that session's id, and two sessions never share a ball. *)
Theorem sessions_and_balls s :
  consistent s →
  count_label PlayerBall s = size (players s) ∧
  (∀ sid p, players s !! sid = Some p →
     filter (owned_by sid s) (world s) = [body p]) ∧
  (∀ sid, players s !! sid = None → filter (owned_by sid s) (world s) = []) ∧
  (∀ sid1 sid2 p1 p2, players s !! sid1 = Some p1 →
     players s !! sid2 = Some p2 → body p1 = body p2 → sid1 = sid2).
Proof.
  intros C. split_and!.
  - by apply count_playerBalls.
  - intros sid p. by apply owned_filter.
  - intros sid Hp. apply elem_of_nil_inv. intros id [Ho Hi]%list_elem_of_filter.
    destruct (c_body_player _ C id Hi (owned_by_is_a _ _ _ Ho))
      as (sid' & p' & Ho' & Hp' & _).
    assert (sid' = sid) as -> by (by apply (owned_by_functional _ _ s id)).
    congruence.
  - intros sid1 sid2 p1 p2. by apply players_bodies_inj.
Qed.

Lemma boot_world id b : heap boot !! id = Some b → id ∈ world boot.
Proof.
  intros Hb. destruct boot_fields as (Hw & _). rewrite Hw.
  assert (id ∈ dom (heap boot)) as Hd by (apply elem_of_dom; eauto).
  rewrite boot_dom, elem_of_list_to_set in Hd. exact Hd.
Qed.

Lemma table_count L s :
  L = Wall ∨ L = Hole → consistent s → table_same boot s →
  count_label L s = count_label L boot.
Proof.
  intros HL C T. unfold count_label.
  apply Permutation_length, NoDup_Permutation.
  - apply NoDup_filter, C.
  - apply NoDup_filter, startable_boot.
  - intros id. rewrite !list_elem_of_filter, !is_a_lookup. split.
    + intros [(b & Hb & Hl) Hi].
      destruct (proj2 (T id b ltac:(by rewrite Hl)) (conj Hi Hb)) as [Hi' Hb'].
      eauto.
    + intros [(b & Hb & Hl) Hi].
      destruct (proj1 (T id b ltac:(by rewrite Hl)) (conj Hi Hb)) as [Hi' Hb'].
      eauto.
Qed.

Lemma boot_counts : count_label Wall boot = 4 ∧ count_label Hole boot = 6.
Proof. by vm_compute. Qed.

(** X9.  In every state the server can reach a game is on: [gameActive]
    is true (nothing ever resets it); [blackBall] is set and refers to the
    one and only BlackBall of the world; [scoreBalls] lists, without
    repetition, exactly the ScoreBalls of the world, and there are at most
    50 of them; each session's body is the one PlayerBall of the world
    that carries its id, and there are as many PlayerBalls as sessions.
    No lower bound on the ScoreBalls is stated: [EvStartGame] carries a
    [ballCount] that is an integer or absent, and with a truthy
    [ballCount] that is not a number the loop of [startGame] would not
    run at all. *)
Theorem reachable_game random cos sin s :
  reachable random cos sin s →
  gameActive s = true ∧
  (∃ k, blackBall s = Some k ∧
        ∀ id, id = k ↔ id ∈ world s ∧ is_a BlackBall s id) ∧
  count_label BlackBall s = 1 ∧
  NoDup (scoreBalls s) ∧
  (∀ id, id ∈ scoreBalls s ↔ id ∈ world s ∧ is_a ScoreBall s id) ∧
  count_label ScoreBall s = length (scoreBalls s) ∧
  count_label ScoreBall s ≤ 50 ∧
  (∀ sid p, players s !! sid = Some p →
     filter (owned_by sid s) (world s) = [body p]) ∧
  count_label PlayerBall s = size (players s).
Proof.
  intros R. pose proof (reachable_consistent _ _ _ _ R) as C.
  pose proof (reachable_settled _ _ _ _ R) as [Ha [Hc1 Hc2] Ht Ho].
  rewrite count_scoreBalls by done.
  split_and!; try done.
  - apply C.
  - by apply count_blackBall.
  - apply C.
  - apply C.
  - intros sid p. by apply owned_filter.
  - by apply count_playerBalls.
Qed.

(** X10.  The table is built once and never changes: in every state the
    server can reach, the four walls and the six holes created at start-up
    are in the world, each the same object in the condition it was created
    in (never moved, never attributed), and the world has no other wall or
    hole. *)
Theorem reachable_table random cos sin s :
  reachable random cos sin s →
  (∀ id b, heap boot !! id = Some b → id ∈ world s ∧ heap s !! id = Some b) ∧
  (∀ id, id ∈ world s → is_a Wall s id ∨ is_a Hole s id →
         id < 10 ∧ heap s !! id = heap boot !! id) ∧
  count_label Wall s = 4 ∧ count_label Hole s = 6.
Proof.
  intros R. pose proof (reachable_consistent _ _ _ _ R) as C.
  pose proof (reachable_settled _ _ _ _ R) as [_ _ T _].
  destruct boot_counts as [Hw Hh].
  split_and!.
  - intros id b Hb. apply (T id b); [by apply (boot_bodies id b)|].
    split; [by apply (boot_world id b) | done].
  - intros id Hi Hl.
    assert (∃ b, heap s !! id = Some b ∧ (label b = Wall ∨ label b = Hole))
      as (b & Hb & Hst).
    { destruct Hl as [(b & ? & ?)%is_a_lookup|(b & ? & ?)%is_a_lookup]; eauto. }
    destruct (proj2 (T id b Hst) (conj Hi Hb)) as [Hi' Hb'].
    split; [|congruence].
    assert (id ∈ dom (heap boot)) as Hd by (apply elem_of_dom; eauto).
    rewrite boot_dom, elem_of_list_to_set, elem_of_seq in Hd. lia.
  - rewrite (table_count Wall s); auto.
  - rewrite (table_count Hole s); auto.
Qed.

(** ** The snapshot *)

Lemma progress_waiting now p :
  (now < cooldown p)%Z →
  cooldownProgress (packPlayer now p)
  = (inject_Z (cooldown p - now) / inject_Z COOLDOWN_TIME)%Q ∧
  (0 < cooldownProgress (packPlayer now p))%Q ∧
  ((cooldown p ≤ now + COOLDOWN_TIME)%Z →
     (cooldownProgress (packPlayer now p) <= 1)%Q).
Proof.
  intros Hlt. unfold packPlayer. cbn [cooldownProgress].
  rewrite decide_True by done. split; [done|].
  assert (0 < inject_Z COOLDOWN_TIME)%Q as Hpos by reflexivity.
  split.
  - apply Qlt_shift_div_l; [done|]. rewrite Qmult_0_l.
    change 0%Q with (inject_Z 0). rewrite <- Zlt_Qlt. lia.
  - intros Hle. apply Qle_shift_div_r; [done|]. rewrite Qmult_1_l.
    rewrite <- Zle_Qle. lia.
Qed.

Lemma progress_ready now p :
  (cooldown p ≤ now)%Z → cooldownProgress (packPlayer now p) = 0%Q.
Proof.
  intros Hle. unfold packPlayer. cbn [cooldownProgress].
  rewrite decide_False; [done|lia].
Qed.

(** X11.  The progress shown in a snapshot agrees with the input gate: for
    a player with a session, the [cooldownProgress] computed at the clock
    value [now] is 0 exactly when a [shoot] arriving at [now] would be
    accepted, and strictly positive exactly when it would be dropped.  The
    snapshot has an entry for every session and for nothing else, and it
    shows the session's score. *)
Theorem cooldownProgress_gate cos sin angle_of s sid p data now :
  consistent s → players s !! sid = Some p →
  dom (gs_players (gameState angle_of now s)) = dom (players s) ∧
  ∃ d, gs_players (gameState angle_of now s) !! sid = Some d ∧
       player_score d = score p ∧
       (0 <= cooldownProgress d)%Q ∧
       ((cooldownProgress d == 0)%Q ↔ shoot cos sin sid data now s ≠ s) ∧
       ((0 < cooldownProgress d)%Q ↔ shoot cos sin sid data now s = s).
Proof.
  intros C Hp. unfold gameState, packPlayers. cbn [gs_players].
  split; [apply dom_fmap_L|].
  exists (packPlayer now p). rewrite lookup_fmap, Hp.
  split; [done|]. split; [done|].
  destruct (decide (now < cooldown p)%Z) as [Hlt|Hge].
  - destruct (progress_waiting now p Hlt) as (_ & Hpos & _).
    rewrite (shoot_dropped cos sin s sid p data now Hp Hlt).
    split_and!.
    + by apply Qlt_le_weak.
    + split; [|done]. intros Hz. rewrite Hz in Hpos. by apply Qlt_irrefl in Hpos.
    + done.
  - destruct (consistent_player_heap s sid p C Hp) as (b & Hb & _).
    assert (shoot cos sin sid data now s ≠ s) as Hne.
    { rewrite (shoot_accepted cos sin s sid p b data now Hp Hb) by lia.
      intros Heq. apply (f_equal (fun t => length (log t))) in Heq.
      state_simpl. simpl in Heq. lia. }
    rewrite progress_ready by lia. split_and!.
    + apply Qle_refl.
    + done.
    + split; [intros Hlt; by apply Qlt_irrefl in Hlt | done].
Qed.

(** X12.  After an accepted [shoot] at the clock value [t], every snapshot
    taken at a clock value [now] not before [t] shows the shooter a
    progress between 0 and 1: it is 1 at [now = t], it is the remaining
    time over 750 while the cooldown runs, and it is 0 from [t + 750]
    on. *)
Theorem snapshot_after_shoot cos sin angle_of s sid p data t now :
  consistent s → players s !! sid = Some p →
  (cooldown p ≤ t)%Z → (t ≤ now)%Z →
  let s' := shoot cos sin sid data t s in
  ∃ d, gs_players (gameState angle_of now s') !! sid = Some d ∧
       player_score d = score p ∧
       (0 <= cooldownProgress d)%Q ∧ (cooldownProgress d <= 1)%Q ∧
       (now = t → (cooldownProgress d == 1)%Q) ∧
       ((now < t + 750)%Z →
          cooldownProgress d = (inject_Z (t + 750 - now) / inject_Z 750)%Q ∧
          (0 < cooldownProgress d)%Q) ∧
       ((t + 750 ≤ now)%Z → cooldownProgress d = 0%Q).
Proof.
  intros C Hp Hle Hnow. cbn zeta.
  destruct (consistent_player_heap s sid p C Hp) as (b & Hb & _).
  rewrite (shoot_accepted cos sin s sid p b data t Hp Hb Hle).
  unfold gameState, packPlayers. cbn [gs_players]. state_simpl.
  exists (packPlayer now (set_cooldown (t + COOLDOWN_TIME) p)).
  rewrite lookup_fmap, lookup_alter_eq, Hp. split; [done|]. split; [done|].
  unfold COOLDOWN_TIME in *.
  destruct (decide (now < t + 750)%Z) as [Hlt|Hge].
  - destruct (progress_waiting now (set_cooldown (t + 750) p) Hlt)
      as (Heq & Hpos & Hone).
    cbn [cooldown set_cooldown] in *. unfold COOLDOWN_TIME in *.
    split_and!.
    + by apply Qlt_le_weak.
    + apply Hone. lia.
    + intros ->. rewrite Heq.
      replace (t + 750 - t)%Z with 750%Z by lia. reflexivity.
    + done.
    + lia.
  - rewrite (progress_ready now (set_cooldown (t + 750) p))
      by (cbn [cooldown set_cooldown]; lia).
    split_and!; try done; lia.
Qed.

Lemma packBall_owned angle_of s sid id :
  consistent s → owners_ok s →
  (∃ d, packBall angle_of s id = Some d ∧ ball_playerId d = Some sid) ↔
  owned_by sid s id.
Proof.
  intros C Ho. rewrite owned_by_lookup. unfold packBall.
  destruct (heap s !! id) as [b|] eqn:Hb.
  - pose proof (proj2 (c_ids _ C id b Hb)) as Hne.
    split.
    + intros (d & Hd & Hpid). case_decide; [done|]. injection Hd as <-.
      cbn [ball_playerId] in Hpid. rewrite truthy_nonempty in Hpid by done.
      exists b. split_and!; [done| |done]. apply (Ho id b Hb). by rewrite Hpid.
    + intros (b' & [= <-] & Hl & Hpid).
      rewrite decide_False by (rewrite Hl; intros [?|?]; done).
      eexists. split; [done|]. cbn [ball_playerId].
      by rewrite truthy_nonempty.
  - split; [by intros (d & ? & _) | by intros (b' & ? & _)].
Qed.

Lemma balls_of_pack angle_of s sid l :
  consistent s → owners_ok s →
  balls_of sid (omap (packBall angle_of s) l)
  = omap (packBall angle_of s) (filter (owned_by sid s) l).
Proof.
  intros C Ho. unfold balls_of. induction l as [|id l IH]; [done|].
  pose proof (packBall_owned angle_of s sid id C Ho) as Hown.
  cbn [omap list_omap]. fold (omap (packBall angle_of s) l).
  destruct (decide (owned_by sid s id)) as [Hy|Hn].
  - rewrite (filter_cons_True (owned_by sid s)) by done.
    destruct (proj2 Hown Hy) as (d & Hd & Hpid). cbn [omap list_omap].
    fold (omap (packBall angle_of s) (filter (owned_by sid s) l)).
    rewrite Hd. rewrite filter_cons_True by done. by rewrite IH.
  - rewrite (filter_cons_False (owned_by sid s)) by done.
    destruct (packBall angle_of s id) as [d|] eqn:Hd; [|done].
    rewrite filter_cons_False; [done|]. intros Hpid. apply Hn, Hown. eauto.
Qed.

Lemma is_a_of s id b L : heap s !! id = Some b → is_a L s id ↔ label b = L.
Proof.
  intros Hb. rewrite is_a_lookup. split; [intros (b' & ? & ?); congruence | eauto].
Qed.

Lemma is_a_unallocated s id L : heap s !! id = None → ¬ is_a L s id.
Proof. intros Hb (b & ? & _)%is_a_lookup. congruence. Qed.

Ltac filter_head Hb :=
  repeat first
    [ rewrite (filter_cons_True (is_a _ _)) by (rewrite (is_a_of _ _ _ _ Hb); congruence)
    | rewrite (filter_cons_False (is_a _ _)) by (rewrite (is_a_of _ _ _ _ Hb); congruence) ].

Lemma packBalls_length angle_of s l :
  length (omap (packBall angle_of s) l)
  = length (filter (is_a ScoreBall s) l) + length (filter (is_a BlackBall s) l)
    + length (filter (is_a PlayerBall s) l).
Proof.
  induction l as [|id l IH]; [done|].
  cbn [omap list_omap]. fold (omap (packBall angle_of s) l).
  destruct (heap s !! id) as [b|] eqn:Hb.
  - unfold packBall at 1. rewrite Hb.
    destruct (label b) eqn:Hl; filter_head Hb.
    + by rewrite decide_True by (by left).
    + by rewrite decide_True by (by right).
    + rewrite decide_False by (intros [?|?]; done). simpl. rewrite IH. lia.
    + rewrite decide_False by (intros [?|?]; done). simpl. rewrite IH. lia.
    + rewrite decide_False by (intros [?|?]; done). simpl. rewrite IH. lia.
  - unfold packBall at 1. rewrite Hb.
    rewrite !filter_cons_False by (by apply is_a_unallocated). done.
Qed.

Lemma packBall_entry angle_of s id d :
  packBall angle_of s id = Some d →
  ∃ b, heap s !! id = Some b ∧ ball_id d = id ∧ ball_label d = label b ∧
       label b ≠ Wall ∧ label b ≠ Hole.
Proof.
  unfold packBall. destruct (heap s !! id) as [b|]; [|done].
  case_decide as Hl; [done|]. intros [= <-]. exists b.
  split_and!; try done; intros ?; apply Hl; auto.
Qed.

Lemma snapshot_owned angle_of s sid :
  consistent s → owners_ok s →
  (∀ p, players s !! sid = Some p →
     ∃ d, balls_of sid (packBalls angle_of s) = [d] ∧ ball_id d = body p ∧
          ball_label d = PlayerBall) ∧
  (players s !! sid = None → balls_of sid (packBalls angle_of s) = []).
Proof.
  intros C Ho. unfold packBalls. rewrite balls_of_pack by done. split.
  - intros p Hp. rewrite (owned_filter s sid p C Hp).
    destruct (c_player_body _ C sid p Hp) as [_ Hown].
    destruct (proj2 (packBall_owned angle_of s sid (body p) C Ho) Hown)
      as (d & Hd & _).
    exists d. cbn [omap list_omap]. rewrite Hd. split; [done|].
    destruct (packBall_entry angle_of s (body p) d Hd) as (b & Hb & Hid & Hl & _).
    split; [done|]. rewrite Hl.
    apply owned_by_lookup in Hown as (b' & Hb' & Hl' & _). congruence.
  - intros Hp. replace (filter (owned_by sid s) (world s)) with (@nil nat); [done|].
    symmetry. apply elem_of_nil_inv. intros id [Hown Hi]%list_elem_of_filter.
    destruct (c_body_player _ C id Hi (owned_by_is_a _ _ _ Hown))
      as (sid' & p' & Ho' & Hp' & _).
    assert (sid' = sid) as -> by (by apply (owned_by_functional _ _ s id)).
    congruence.
Qed.

Lemma snapshot_length angle_of s :
  consistent s →
  length (packBalls angle_of s) = length (scoreBalls s) + 1 + size (players s).
Proof.
  intros C. unfold packBalls. rewrite packBalls_length.
  fold (count_label ScoreBall s) (count_label BlackBall s)
       (count_label PlayerBall s).
  by rewrite count_scoreBalls, count_blackBall, count_playerBalls.
Qed.

(** X13.  What a snapshot shows of the bodies, in every state the server
    can reach: its [balls] are the ScoreBalls, the BlackBall and one ball
    per session, and never a wall or a hole; the balls that carry a
    [playerId] are exactly the balls of the sessions, one each, and the
    [players] part has exactly the ids of the sessions. *)
Theorem snapshot_balls random cos sin angle_of now s :
  reachable random cos sin s →
  let g := gameState angle_of now s in
  length (gs_balls g) = length (scoreBalls s) + 1 + size (players s) ∧
  (∀ d, d ∈ gs_balls g →
        ball_id d ∈ world s ∧ ball_label d ≠ Wall ∧ ball_label d ≠ Hole) ∧
  (∀ sid p, players s !! sid = Some p →
     ∃ d, balls_of sid (gs_balls g) = [d] ∧ ball_id d = body p ∧
          ball_label d = PlayerBall) ∧
  (∀ sid, players s !! sid = None → balls_of sid (gs_balls g) = []) ∧
  dom (gs_players g) = dom (players s).
Proof.
  intros R. pose proof (reachable_consistent _ _ _ _ R) as C.
  pose proof (reachable_settled _ _ _ _ R) as [_ _ _ Ho].
  cbn zeta. unfold gameState. cbn [gs_balls gs_players].
  split_and!.
  - by apply snapshot_length.
  - intros d (id & Hi & Hd)%list_elem_of_omap.
    destruct (packBall_entry angle_of s id d Hd) as (b & _ & -> & -> & ? & ?).
    done.
  - intros sid p. by apply snapshot_owned.
  - intros sid. by apply snapshot_owned.
  - apply dom_fmap_L.
Qed.

(** X14.  After [disconnect], the snapshots show neither the player nor
    its ball: in every state the server can reach, the snapshot taken
    after [disconnect] has no [players] entry for the id, no ball that
    carries it, and one ball per remaining session. *)
Theorem snapshot_after_disconnect random cos sin angle_of now s sid :
  reachable random cos sin s →
  let g := gameState angle_of now (disconnect sid s) in
  gs_players g !! sid = None ∧
  balls_of sid (gs_balls g) = [] ∧
  length (gs_balls g)
  = length (scoreBalls s) + 1 + size (delete sid (players s)).
Proof.
  intros R.
  assert (reachable random cos sin (disconnect sid s)) as R'
    by exact (reach_handle random cos sin (EvDisconnect sid) s R I).
  pose proof (reachable_consistent _ _ _ _ R') as C'.
  pose proof (reachable_settled _ _ _ _ R') as [_ _ _ Ho'].
  assert (players (disconnect sid s) = delete sid (players s)
          ∧ scoreBalls (disconnect sid s) = scoreBalls s) as [Hp Hs].
  { unfold disconnect. destruct (players s !! sid) eqn:E; state_simpl; [done|].
    by rewrite delete_id. }
  assert (players (disconnect sid s) !! sid = None) as Hnone
    by (rewrite Hp; apply lookup_delete_eq).
  cbn zeta. unfold gameState, packPlayers. cbn [gs_balls gs_players].
  split_and!.
  - by rewrite lookup_fmap, Hnone.
  - by apply snapshot_owned.
  - by rewrite snapshot_length, Hp, Hs.
Qed.

(** ** The further theorems at work on the sample states *)

Lemma reachable_joinGame random cos sin sid s :
  reachable random cos sin s → sid ≠ "" →
  reachable random cos sin (joinGame random sid s).
Proof.
  intros R H. exact (reach_handle random cos sin (EvJoinGame sid) s R H).
Qed.

Lemma two_players_reachable : reachable half const_one const_zero two_players.
Proof.
  unfold two_players.
  exact (reachable_joinGame half const_one const_zero "b" _
           (reachable_joinGame half const_one const_zero "a" _
              (reach_initial half const_one const_zero) ltac:(discriminate))
           ltac:(discriminate)).
Qed.

(** X2 at work: the ball of "a" and the ScoreBall 10, named either way. *)
Lemma handlePair_symmetric_witness :
  ¬ (is_a PlayerBall two_players 26 ∧ is_a PlayerBall two_players 10) ∧
  handlePair half 26 10 two_players = handlePair half 10 26 two_players.
Proof.
  assert (¬ (is_a PlayerBall two_players 26 ∧ is_a PlayerBall two_players 10))
    as H by (intros [_ H]; vm_compute in H; discriminate).
  split; [exact H|].
  exact (handlePair_symmetric half two_players 26 10 H).
Defined.

(** X3 at work: "a", then "b", touch the ScoreBall 10. *)
Lemma last_toucher_wins_witness :
  heap two_players !! 10 = Some (scoreBallBody half 0) ∧
  heap (handlePair half 27 10 (handlePair half 26 10 two_players)) !! 10
  = Some (set_lastTouchedBy (Some "b") (scoreBallBody half 0)).
Proof.
  assert (heap two_players !! 26 = Some (playerBallBody half 45 "a")) as Ha
    by (vm_compute; reflexivity).
  assert (heap two_players !! 27 = Some (playerBallBody half 48 "b")) as Hb
    by (vm_compute; reflexivity).
  assert (heap two_players !! 10 = Some (scoreBallBody half 0)) as Hx
    by (vm_compute; reflexivity).
  split; [exact Hx|].
  pose proof (last_toucher_wins half two_players 26 27 10 _ _ _ Ha Hb Hx
                eq_refl eq_refl (or_introl eq_refl)) as T.
  cbn zeta in T. exact (proj1 T).
Defined.

(** X4 at work: the ScoreBall 10, touched by "a", meets a hole twice. *)
Lemma hole_twice_witness :
  consistent touched_score ∧ 10 ∈ world touched_score ∧
  score <$> players (handleHoleCollision half 10 touched_score) !! "a"
  = Some 1%Z ∧
  players (handleHoleCollision half 10
             (handleHoleCollision half 10 touched_score)) !! "a"
  = add_score 0 <$> players (handleHoleCollision half 10 touched_score) !! "a".
Proof.
  assert (10 ∈ world touched_score) as Hin by in_world.
  assert (heap touched_score !! 10
          = Some (set_lastTouchedBy (Some "a") (scoreBallBody half 0)))
    as Hb by (vm_compute; reflexivity).
  split; [exact touched_score_consistent|]. split; [exact Hin|].
  split; [vm_compute; reflexivity|].
  pose proof (hole_twice half touched_score 10 _ touched_score_consistent Hin Hb)
    as T.
  cbn zeta in T. exact (T "a").
Defined.

(** X5 at work: "a" leaves; "b" stays. *)
Lemma disconnect_session_witness :
  consistent two_players ∧
  players two_players !! "a" = Some (playerEntry half 45 "a" 26) ∧
  (26 ∉ world (disconnect "a" two_players)) ∧
  size (players (disconnect "a" two_players)) = 1.
Proof.
  assert (players two_players !! "a" = Some (playerEntry half 45 "a" 26))
    as Hpa by (vm_compute; reflexivity).
  split; [exact two_players_consistent|]. split; [exact Hpa|].
  pose proof (disconnect_session "a" two_players _ two_players_consistent Hpa)
    as T.
  cbn zeta in T. destruct T as (_ & T1 & T2 & _).
  split; [exact T2|].
  exact (eq_trans T1 ltac:(vm_compute; reflexivity)).
Defined.

(** X6 at work: "a" joins right after start-up and leaves again. *)
Lemma join_disconnect_round_trip_witness :
  consistent (initial half) ∧ players (initial half) !! "a" = None ∧
  world (disconnect "a" (joinGame half "a" (initial half)))
  = world (initial half) ∧
  players (disconnect "a" (joinGame half "a" (initial half)))
  = players (initial half).
Proof.
  assert (players (initial half) !! "a" = None) as Hp
    by (vm_compute; reflexivity).
  split; [exact (consistent_initial half)|]. split; [exact Hp|].
  pose proof (join_disconnect_round_trip half "a" (initial half)
                (consistent_initial half) Hp) as T.
  cbn zeta in T. destruct T as (T1 & T2 & _).
  split; [exact T1 | exact T2].
Defined.

(** X8 at work: two sessions, two PlayerBalls. *)
Lemma sessions_and_balls_witness :
  consistent two_players ∧ count_label PlayerBall two_players = 2.
Proof.
  split; [exact two_players_consistent|].
  exact (eq_trans (proj1 (sessions_and_balls two_players two_players_consistent))
           ltac:(vm_compute; reflexivity)).
Defined.

(** X9 at work: two players have joined the game started at start-up. *)
Lemma reachable_game_witness :
  reachable half const_one const_zero two_players ∧
  gameActive two_players = true ∧ count_label BlackBall two_players = 1 ∧
  count_label ScoreBall two_players = 15 ∧
  (10 ∈ scoreBalls two_players ↔
   10 ∈ world two_players ∧ is_a ScoreBall two_players 10).
Proof.
  split; [exact two_players_reachable|].
  pose proof (reachable_game half const_one const_zero two_players
                two_players_reachable) as T.
  destruct T as (T1 & _ & T2 & _ & T3 & T4 & _).
  split; [exact T1|]. split; [exact T2|].
  split; [exact (eq_trans T4 ltac:(vm_compute; reflexivity))|].
  exact (T3 10).
Defined.

(** X10 at work. *)
Lemma reachable_table_witness :
  reachable half const_one const_zero two_players ∧
  count_label Wall two_players = 4 ∧ count_label Hole two_players = 6.
Proof.
  split; [exact two_players_reachable|].
  pose proof (reachable_table half const_one const_zero two_players
                two_players_reachable) as T.
  destruct T as (_ & _ & T1 & T2). split; [exact T1 | exact T2].
Defined.

(** X11 at work: "a" has never shot, so its progress at time 1000 is 0
    and a [shoot] is accepted. *)
Lemma cooldownProgress_gate_witness :
  consistent two_players ∧
  players two_players !! "a" = Some (playerEntry half 45 "a" 26) ∧
  dom (gs_players (gameState no_rotation 1000 two_players))
  = dom (players two_players).
Proof.
  assert (players two_players !! "a" = Some (playerEntry half 45 "a" 26))
    as Hpa by (vm_compute; reflexivity).
  split; [exact two_players_consistent|]. split; [exact Hpa|].
  exact (proj1 (cooldownProgress_gate const_one const_zero no_rotation
                  two_players "a" _ {| force := None; angle := None |} 1000%Z
                  two_players_consistent Hpa)).
Defined.

(** X12 at work: "a" shoots at time 1000; snapshots at 1000 and later. *)
Lemma snapshot_after_shoot_witness :
  consistent two_players ∧
  players two_players !! "a" = Some (playerEntry half 45 "a" 26) ∧
  ∃ d, gs_players
         (gameState no_rotation 1300
            (shoot const_one const_zero "a" {| force := Some 10%Q; angle := None |}
               1000 two_players)) !! "a" = Some d ∧
       (cooldownProgress d <= 1)%Q.
Proof.
  assert (players two_players !! "a" = Some (playerEntry half 45 "a" 26))
    as Hpa by (vm_compute; reflexivity).
  split; [exact two_players_consistent|]. split; [exact Hpa|].
  destruct (snapshot_after_shoot const_one const_zero no_rotation two_players "a"
              _ {| force := Some 10%Q; angle := None |} 1000%Z 1300%Z
              two_players_consistent Hpa
              ltac:(vm_compute; discriminate) ltac:(vm_compute; discriminate))
    as (d & Hd & _ & _ & Hle & _).
  exists d. split; [exact Hd | exact Hle].
Defined.

(** X13 at work: 15 ScoreBalls, the BlackBall and two PlayerBalls. *)
Lemma snapshot_balls_witness :
  reachable half const_one const_zero two_players ∧
  length (gs_balls (gameState no_rotation 0 two_players)) = 18.
Proof.
  split; [exact two_players_reachable|].
  pose proof (snapshot_balls half const_one const_zero no_rotation 0%Z two_players
                two_players_reachable) as T.
  cbn zeta in T. exact (eq_trans (proj1 T) ltac:(vm_compute; reflexivity)).
Defined.

(** X14 at work: "a" leaves. *)
Lemma snapshot_after_disconnect_witness :
  reachable half const_one const_zero two_players ∧
  balls_of "a" (gs_balls (gameState no_rotation 0 (disconnect "a" two_players)))
  = [].
Proof.
  split; [exact two_players_reachable|].
  pose proof (snapshot_after_disconnect half const_one const_zero no_rotation 0%Z
                two_players "a" two_players_reachable) as T.
  cbn zeta in T. exact (proj1 (proj2 T)).
Defined.

(** ** New balls *)

Lemma hue_range r :
  (0 <= r)%Q → (r < 1)%Q →
  (0 ≤ Qfloor (r * 360))%Z ∧ (Qfloor (r * 360) < 360)%Z.
Proof.
  intros H0 H1. split.
  - change 0%Z with (Qfloor 0). apply Qfloor_resp_le. lra.
  - rewrite Zlt_Qlt. eapply Qle_lt_trans; [apply Qfloor_le|].
    change (inject_Z 360) with 360%Q. lra.
Qed.


(** X16.  The ball of a new player: [joinGame] for an id without session
    creates a PlayerBall of radius 28 at rest at a point of the inset
    rectangle, owned by the id and never touched; its hue is an integer
    from 0 to 359, and the same colour is the ball's fill style, the
    session's colour and the colour of the [joined] reply; the session's
    name is "P-" followed by the first four characters of the id. *)
Theorem joinGame_new_player random sid s :
  unit_interval random → players s !! sid = None →
  let s' := joinGame random sid s in
  ∃ p b hue,
    players s' !! sid = Some p ∧ body p = nextId s ∧
    heap s' !! nextId s = Some b ∧ nextId s ∈ world s' ∧
    label b = PlayerBall ∧ playerId b = Some sid ∧
    shape b = Circle 28 ∧ in_inset (position b) ∧ velocity b = zero ∧
    lastTouchedBy b = None ∧
    (0 ≤ hue)%Z ∧ (hue < 360)%Z ∧
    fillStyle b = Some (Hsl hue) ∧ color p = Hsl hue ∧
    log s' = SocketEmit sid (joined sid (Hsl hue)) :: log s ∧
    name p = "P-" +:+ String.substring 0 4 sid.
Proof.
  intros Hr Hfree. cbn zeta. rewrite joinGame_fresh by done.
  destruct (createPlayer_shape random sid s)
    as (Hh & Hw & Hp & _ & _ & _ & Hl & _).
  cbn zeta in *. state_simpl. rewrite Hh, Hw, Hp, Hl.
  exists (playerEntry random (draws s) sid (nextId s)),
         (playerBallBody random (draws s) sid),
         (Qfloor (random (draws s) * 360)).
  destruct (Hr (draws s)) as [H0 H1].
  destruct (hue_range (random (draws s)) H0 H1) as [Hh0 Hh1].
  split_and!; try done.
  - apply lookup_insert_eq.
  - apply lookup_insert_eq.
  - rewrite elem_of_app, list_elem_of_singleton. by right.
  - unfold in_inset. cbn.
    destruct (Hr (draws s + 1)), (Hr (draws s + 2)).
    destruct (inset_x_range (random (draws s + 1))),
             (inset_y_range (random (draws s + 2))); auto.
Qed.


(** X16 at work: "a" joins right after start-up. *)
Lemma joinGame_new_player_witness :
  unit_interval half ∧ players (initial half) !! "a" = None ∧
  ∃ p, players (joinGame half "a" (initial half)) !! "a" = Some p ∧
       body p = nextId (initial half).
Proof.
  assert (players (initial half) !! "a" = None) as Hp
    by (vm_compute; reflexivity).
  split; [exact unit_interval_half|]. split; [exact Hp|].
  destruct (joinGame_new_player half "a" (initial half) unit_interval_half Hp)
    as (p & b & hue & H1 & H2 & _).
  exists p. split; [exact H1 | exact H2].
Defined.
